(** * invoiceninja-mercury-sync: the reconciliation loop of [main.go]

    A shallow embedding of the synchronisation engine of [main.go]
    ([syncTransactions], [createInvoiceNinjaTransaction] with
    [getRequest], [loadState], [saveState], [loadConfig] and the
    scheduler loop of [main]) and the properties of the dedup ledger
    proved about it.

    Modelling conventions.
    - [time.Time] is an instant in nanoseconds since the Unix epoch
      together with the UTC offset of its location.  Locations have a
      fixed offset (the shipped image runs in UTC), hence
      [AddDate(0, 0, d)] moves the instant by [d] times 86400 seconds;
      Go counts these seconds from the year 1 in 64 bits, which
      [AddDate] below follows.
    - [float64] is [spec_float], the IEEE-754 model of the standard
      library.
    - [map[string]time.Time] is [gmap string Time].  The Go code mutates
      the one map that [main] owns; every function here takes the map and
      returns the map as the callee left it, also on the error path.
    - The outside world (clock, the two HTTP APIs, the file system) is an
      [Env] of oracles indexed by the number of interactions made so far,
      so that the answers may change from call to call.  Effects are run
      in the monad [M], which threads the [World] and collects the
      [Event]s in program order.
    - Texts that a library writes into an error ([%v] of an error of
      [os], [net/url] or [encoding/json]) are data of the outside world;
      the texts that [main.go] and [rh.NewRequest] put around them are
      spelled out.
    - Slices of pointers hold no nil element. *)

From Stdlib Require Import ZArith Lia List.
From Stdlib Require Import Floats.SpecFloat.
From stdpp Require Import gmap strings list fin_maps.

Local Open Scope string_scope.
Local Open Scope list_scope.
Local Open Scope Z_scope.

(** ** Machine integers *)

Module Int64.

Definition modulus : Z := 2 ^ 64.
Definition min_int : Z := - 2 ^ 63.
Definition max_int : Z := 2 ^ 63 - 1.

(** Two's complement wrap-around of Go's [int] and [int64]. *)
Definition wrap (z : Z) : Z := (z + 2 ^ 63) mod modulus - 2 ^ 63.

Definition neg (z : Z) : Z := wrap (- z).
Definition mul (a b : Z) : Z := wrap (a * b).

(** Saturation, as [Time.Sub] does on overflow. *)
Definition saturate (z : Z) : Z := Z.max min_int (Z.min max_int z).

Definition in_range (z : Z) : Prop := min_int <= z <= max_int.

(** A value of Go's [int]: what [json.Unmarshal] can store into an
    [int] field.  A number outside the range is refused by the
    decoder. *)
Record int := mkInt {
  intval : Z;
  int_ok : (min_int <=? intval) && (intval <=? max_int) = true
}.

End Int64.

(** ** Time *)

Record Time := mkTime {
  wall : Z;   (* nanoseconds since 1970-01-01T00:00:00Z *)
  zone : Z    (* offset of the location, seconds east of UTC *)
}.

Definition nsPerSecond : Z := 1000000000.
Definition secondsPerDay : Z := 86400.
Definition nsPerDay : Z := secondsPerDay * nsPerSecond.
Definition nsPerHour : Z := 3600 * nsPerSecond.   (* time.Hour *)

(** [t.Before(u)] *)
Definition Before (t u : Time) : bool := wall t <? wall u.

(** [days] days after [t], to the nanosecond: what
    [t.AddDate(0, 0, days)] is in a fixed-offset location as long as the
    seconds stay within 64 bits (see [AddDate] and [AddDate_AddDays]).
    The cutoff of the pruning loop is computed with it. *)
Definition AddDays (t : Time) (days : Z) : Time :=
  {| wall := wall t + days * nsPerDay; zone := zone t |}.

(** Seconds from January 1 of the year 1 to the Unix epoch
    ([unixToInternal] of package [time]). *)
Definition unixToInternal : Z := 62135596800.

(** [t.AddDate(0, 0, days)] in a fixed-offset location.  [AddDate]
    takes the civil date and the clock of [t] and rebuilds the time with
    [Date(year, month, day+days, hour, min, sec, nsec, loc)]; [Date]
    counts the seconds since the year 1 in unsigned 64-bit arithmetic
    and stores them as an [int64], so the day count enters modulo 2^64
    seconds and the nanoseconds within the second are kept. *)
Definition AddDate (t : Time) (days : Z) : Time :=
  let sec := wall t / nsPerSecond in
  let nsec := wall t mod nsPerSecond in
  let internal := Int64.wrap (sec + unixToInternal + days * secondsPerDay) in
  {| wall := (internal - unixToInternal) * nsPerSecond + nsec;
     zone := zone t |}.

(** The instant that [t.Format(time.RFC3339)] names: the layout has no
    fraction of a second. *)
Definition truncateSecond (t : Time) : Time :=
  {| wall := wall t / nsPerSecond * nsPerSecond; zone := zone t |}.

(** [t.Add(d)] *)
Definition Add (t : Time) (d : Z) : Time :=
  {| wall := wall t + d; zone := zone t |}.

(** [t.Sub(u)] *)
Definition Sub (t u : Time) : Z := Int64.saturate (wall t - wall u).

(** *** Civil dates: [t.Format("2006-01-02")] *)

(** Day number (days since 1970-01-01) to proleptic Gregorian
    (year, month, day). *)
Definition civil_of_days (z : Z) : Z * Z * Z :=
  let z := z + 719468 in
  let era := z / 146097 in
  let doe := z - era * 146097 in
  let yoe := (doe - doe / 1460 + doe / 36524 - doe / 146096) / 365 in
  let doy := doe - (365 * yoe + yoe / 4 - yoe / 100) in
  let mp := (5 * doy + 2) / 153 in
  let d := doy - (153 * mp + 2) / 5 + 1 in
  let m := if mp <? 10 then mp + 3 else mp - 9 in
  let y := yoe + era * 400 in
  (if m <=? 2 then y + 1 else y, m, d).

(** The inverse direction, used to state that [civil_of_days] is right. *)
Definition days_of_civil (y m d : Z) : Z :=
  let y := if m <=? 2 then y - 1 else y in
  let era := y / 400 in
  let yoe := y - era * 400 in
  let doy := (153 * (if m <=? 2 then m + 9 else m - 3) + 2) / 5 + d - 1 in
  let doe := yoe * 365 + yoe / 4 - yoe / 100 + doy in
  era * 146097 + doe - 719468.

(** The day number of [t] on the wall clock of its location. *)
Definition localDay (t : Time) : Z :=
  (wall t / nsPerSecond + zone t) / secondsPerDay.

Definition digit (n : Z) : string :=
  String (Ascii.ascii_of_nat (48 + Z.to_nat (n mod 10))) "".

(** [w] decimal digits of [n], most significant first (zero padded). *)
Fixpoint digits (w : nat) (n : Z) : string :=
  match w with
  | O => ""
  | S w' => digits w' (n / 10) +:+ digit n
  end.

(** Number of decimal digits of a non-negative [n] (at least one). *)
Fixpoint ndigits (fuel : nat) (n : Z) : nat :=
  match fuel with
  | O => 1
  | S f => if n <? 10 then 1%nat else S (ndigits f (n / 10))
  end.

(** [appendInt(b, x, width)] of package [time]: sign, then at least
    [width] digits. *)
Definition appendInt (x : Z) (width : nat) : string :=
  let u := Z.abs x in
  let n := Nat.max width (ndigits (Z.to_nat (Z.log2 u)) u) in
  (if x <? 0 then "-" else "") +:+ digits n u.

(** [t.Format("2006-01-02")] *)
Definition FormatDate (t : Time) : string :=
  let '(y, m, d) := civil_of_days (localDay t) in
  appendInt y 4 +:+ "-" +:+ digits 2 m +:+ "-" +:+ digits 2 d.

(** ** Data model *)

Record MercuryAccount := mkAccount {
  acctID : string;
  acctName : string
}.

Record MercuryTransaction := mkTx {
  ID : string;
  Amount : spec_float;
  BankDescription : string;
  PostedAt : Time
}.

Inductive BaseType := DEBIT | CREDIT.

Record InvoiceNinjaBankTX := mkBankTX {
  btAmount : spec_float;
  btDate : string;
  btDescription : string;
  btBankIntegrationID : string;
  btBaseType : BaseType
}.

Record Config := mkConfig {
  MercuryAPIKey : string;
  InvoiceNinjaToken : string;
  InvoiceNinjaURL : string;
  BankProvider : string;
  SyncIntervalHours : Z;
  SyncStartDaysAgo : Z;
  LogLevel : string;
  stateFilePath : string;
  bankIntegrationID : string;
  mercuryAccounts : list MercuryAccount
}.

(** [SyncState.ProcessedTxIDs]: transaction id to the time it was
    recorded. *)
Abbreviation Ledger := (gmap string Time).

(** A Go [error]: [None] is [nil]. *)
Abbreviation error := (option string).

Inductive result (A : Type) :=
| Ok (a : A)
| Err (e : string).
Arguments Ok {A} a.
Arguments Err {A} e.

(** ** Configuration: [loadConfig] *)

(** *** [filepath.Join] on a Unix system *)

(** The stretches of a path between its slashes; [cur] is the stretch
    being read. *)
Fixpoint pathElements (cur : string) (s : string) : list string :=
  match s with
  | EmptyString => [cur]
  | String c rest =>
      if String.eqb (String c "") "/" then cur :: pathElements "" rest
      else pathElements (cur +:+ String c "") rest
  end.

(** One element met by [filepath.Clean]; [out] holds the elements kept
    so far, the last one first.  Empty elements and [.] are dropped, and
    [..] removes the element before it when there is one to remove. *)
Definition cleanStep (rooted : bool) (out : list string) (el : string)
  : list string :=
  if String.eqb el "" || String.eqb el "." then out
  else if String.eqb el ".." then
    match out with
    | top :: below => if String.eqb top ".." then el :: out else below
    | [] => if rooted then [] else [el]
    end
  else el :: out.

(** [filepath.Clean] *)
Definition filepathClean (path : string) : string :=
  let rooted :=
    match path with
    | String c _ => String.eqb (String c "") "/"
    | EmptyString => false
    end in
  let out := fold_left (cleanStep rooted) (pathElements "" path) [] in
  let body := String.concat "/" (rev out) in
  if rooted then "/" +:+ body
  else if String.eqb body "" then "." else body.

(** [filepath.Join(dir, file)]: empty elements are ignored and the
    result is cleaned. *)
Definition filepathJoin (dir file : string) : string :=
  if String.eqb dir "" then
    if String.eqb file "" then "" else filepathClean file
  else filepathClean (dir +:+ "/" +:+ file).

(** *** The file *)

(** The keys a configuration file may set; an absent key leaves the
    default in place.  The two numbers are values of Go's [int]. *)
Record ConfigFile := mkConfigFile {
  fMercuryAPIKey : option string;
  fInvoiceNinjaToken : option string;
  fInvoiceNinjaURL : option string;
  fBankProvider : option string;
  fSyncIntervalHours : option Int64.int;
  fSyncStartDaysAgo : option Int64.int;
  fLogLevel : option string
}.

(** What [os.ReadFile] and [json.Unmarshal] make of the file at
    [configPath]: it cannot be read, or its content is refused by the
    decoder (text that is not JSON, a member of the wrong JSON type, a
    number that is no [int]), or it is an object with some of the seven
    keys. *)
Inductive ConfigSource :=
| ReadError (e : string)
| DecodeError (e : string)
| Object (f : ConfigFile).

Definition defaultConfig (dataDir : string) : Config :=
  {| MercuryAPIKey := "";
     InvoiceNinjaToken := "";
     InvoiceNinjaURL := "";
     BankProvider := "Mercury";
     SyncIntervalHours := 1;
     SyncStartDaysAgo := 7;
     LogLevel := "info";
     stateFilePath := filepathJoin dataDir "sync_state.json";
     bankIntegrationID := "";
     mercuryAccounts := [] |}.

(** [json.Unmarshal(configData, config)] when it succeeds. *)
Definition unmarshalConfig (f : ConfigFile) (c : Config) : Config :=
  {| MercuryAPIKey := default (MercuryAPIKey c) (fMercuryAPIKey f);
     InvoiceNinjaToken := default (InvoiceNinjaToken c) (fInvoiceNinjaToken f);
     InvoiceNinjaURL := default (InvoiceNinjaURL c) (fInvoiceNinjaURL f);
     BankProvider := default (BankProvider c) (fBankProvider f);
     SyncIntervalHours :=
       default (SyncIntervalHours c) (Int64.intval <$> fSyncIntervalHours f);
     SyncStartDaysAgo :=
       default (SyncStartDaysAgo c) (Int64.intval <$> fSyncStartDaysAgo f);
     LogLevel := default (LogLevel c) (fLogLevel f);
     stateFilePath := stateFilePath c;
     bankIntegrationID := bankIntegrationID c;
     mercuryAccounts := mercuryAccounts c |}.

Definition withURL (c : Config) (u : string) : Config :=
  {| MercuryAPIKey := MercuryAPIKey c;
     InvoiceNinjaToken := InvoiceNinjaToken c;
     InvoiceNinjaURL := u;
     BankProvider := BankProvider c;
     SyncIntervalHours := SyncIntervalHours c;
     SyncStartDaysAgo := SyncStartDaysAgo c;
     LogLevel := LogLevel c;
     stateFilePath := stateFilePath c;
     bankIntegrationID := bankIntegrationID c;
     mercuryAccounts := mercuryAccounts c |}.

(** [loadConfig]; [src] is what reading and decoding the file gave, and
    [parseRequestURI] is the error of [url.ParseRequestURI], if any. *)
Definition loadConfig (parseRequestURI : string -> error) (src : ConfigSource)
    (dataDir invoiceNinjaURL : string) : result Config :=
  match src with
  | ReadError e => Err ("error reading config file: " +:+ e)
  | DecodeError e => Err ("error parsing config file: " +:+ e)
  | Object f =>
      let config := unmarshalConfig f (defaultConfig dataDir) in
      if String.eqb (MercuryAPIKey config) "" then
        Err "missing Mercury API key"
      else if String.eqb (InvoiceNinjaToken config) "" then
        Err "missing InvoiceNinja token"
      else
        let config :=
          if String.eqb (InvoiceNinjaURL config) ""
          then withURL config invoiceNinjaURL
          else config in
        match parseRequestURI (InvoiceNinjaURL config) with
        | Some e => Err ("invalid InvoiceNinja URL: " +:+ e)
        | None => Ok config
        end
  end.

(** The two windows of the reconciliation loop, in days: the literal of
    [syncTransactions] and the setting of [fetchMercuryTransactions]. *)
Definition retentionDays : Z := 7.
Definition lookbackDays (config : Config) : Z := SyncStartDaysAgo config.

(** ** The outside world *)

(** The state file as [loadState] finds it: absent, holding the JSON of
    a map, unreadable ([os.ReadFile] fails with [e]), or holding
    something [json.Unmarshal] refuses with [e]. *)
Inductive DiskFile :=
| NoFile
| Snapshot (l : Ledger)
| Unreadable (e : string)
| Damaged (e : string).

(** What the file system does when [saveState] writes the state file;
    [e] is the text of the error of [os]. *)
Inductive SaveOutcome :=
| Written                  (* every step succeeded *)
| MkdirFailed (e : string) (* [os.MkdirAll] failed *)
| OpenFailed (e : string)  (* [os.WriteFile] could not open the file *)
| WriteFailed (e : string).
    (* [os.WriteFile] truncated the file and failed before all was written *)

Record Env := mkEnv {
  latency : nat -> Z;
  localZone : Z;
  fetchResp : nat -> MercuryAccount -> Time -> result (list MercuryTransaction);
  postResp : nat -> InvoiceNinjaBankTX -> error;
  saveResp : nat -> SaveOutcome
}.

Record World := mkWorld {
  tick : nat;       (* interactions with the outside so far *)
  clock : Z;        (* wall clock, nanoseconds since the epoch *)
  disk : DiskFile   (* the state file *)
}.

Inductive Level := LevelDebug | LevelInfo | LevelError.

(** What a run leaves behind, in program order: a log record; the
    request for the transactions of an account with its answer; a call
    of [createInvoiceNinjaTransaction] for [tx], with the record it
    built and the error it returned; a write of the state file; a
    sleep. *)
Inductive Event :=
| Log (lvl : Level) (msg : string) (attrs : list (string * string))
| Fetch (acct : MercuryAccount) (start : Time)
    (resp : result (list MercuryTransaction))
| Post (tx : MercuryTransaction) (body : InvoiceNinjaBankTX) (resp : error)
| Save (snapshot : Ledger) (outcome : SaveOutcome)
| Sleep (d : Z).

(** ** The effect monad *)

Definition M (A : Type) : Type := World -> A * World * list Event.

Definition ret {A} (a : A) : M A := fun w => (a, w, []).

Definition bind {A B} (m : M A) (k : A -> M B) : M B :=
  fun w =>
    let '(a, w1, t1) := m w in
    let '(b, w2, t2) := k a w1 in
    (b, w2, t1 ++ t2).

Notation "'let*' x ':=' m 'in' k" := (bind m (fun x => k))
  (at level 10, x pattern, m at level 100, k at level 200).
Notation "m1 ';;' m2" := (bind m1 (fun _ => m2))
  (at level 100, m2 at level 200, right associativity).

Definition emit (e : Event) : M unit := fun w => (tt, w, [e]).

(** One interaction with the outside: time passes, the counter moves. *)
Definition advance (env : Env) (w : World) : World :=
  {| tick := S (tick w);
     clock := clock w + latency env (tick w);
     disk := disk w |}.

Definition interact (env : Env) : M nat :=
  fun w => (tick w, advance env w, []).

Definition getClock : M Z := fun w => (clock w, w, []).
Definition setDisk (d : DiskFile) : M unit :=
  fun w => (tt, {| tick := tick w; clock := clock w; disk := d |}, []).

Definition slog (lvl : Level) (msg : string) (attrs : list (string * string))
  : M unit := emit (Log lvl msg attrs).

(** [time.Now()] *)
Definition timeNow (env : Env) : M Time :=
  let* _ := interact env in
  let* c := getClock in
  ret {| wall := c; zone := localZone env |}.

(** What [time.Now()] returns in world [w]. *)
Definition nowAt (env : Env) (w : World) : Time :=
  {| wall := clock (advance env w); zone := localZone env |}.

(** [time.Sleep(d)]: the clock moves on by [d] when positive, and by
    whatever the wake-up costs. *)
Definition timeSleep (env : Env) (d : Z) : M unit :=
  fun w =>
    (tt,
     {| tick := S (tick w);
        clock := clock w + Z.max d 0 + latency env (tick w);
        disk := disk w |},
     [Sleep d]).

(** ** Dedup ledger *)

(** The pruning loop of [syncTransactions]: range over the map and
    delete, from the map itself, every entry older than the cutoff. *)
Definition pruneLoop (cutoffTime : Time) (processed : Ledger) : Ledger :=
  map_fold
    (fun id timestamp acc =>
       if Before timestamp cutoffTime then delete id acc else acc)
    processed processed.

(** [loadState], given the state file.  A file whose
    [processed_tx_ids] is [null] leaves a nil map, which reads as the
    empty one and is [Snapshot ∅] here. *)
Definition loadState (d : DiskFile) : result Ledger :=
  match d with
  | NoFile => Ok ∅
  | Snapshot l => Ok l
  | Unreadable e => Err ("error reading state file: " +:+ e)
  | Damaged e => Err ("error parsing state file: " +:+ e)
  end.

(** What [json.Unmarshal] says of a file that ends before its JSON
    value does. *)
Definition unexpectedEnd : string := "unexpected end of JSON input".

(** [saveState]; the times of a map that came from a state file have a
    JSON form, so [json.Marshal] succeeds. *)
Definition saveState (env : Env) (state : Ledger) : M error :=
  let* n := interact env in
  let outcome := saveResp env n in
  emit (Save state outcome) ;;
  match outcome with
  | Written => setDisk (Snapshot state) ;; ret None
  | MkdirFailed e => ret (Some ("error creating state directory: " +:+ e))
  | OpenFailed e => ret (Some ("error writing state file: " +:+ e))
  | WriteFailed e =>
      setDisk (Damaged unexpectedEnd) ;;
      ret (Some ("error writing state file: " +:+ e))
  end.

(** ** The two remote calls *)

(** The [start] of the query of [fetchMercuryTransactions]: the instant
    named by [now.AddDate(0, 0, -config.SyncStartDaysAgo)] once written
    in the layout [time.RFC3339]. *)
Definition fetchStart (config : Config) (now : Time) : Time :=
  truncateSecond (AddDate now (Int64.neg (SyncStartDaysAgo config))).

(** [fetchMercuryTransactions]; its request has a nil body, and
    building and sending it are the oracle [fetchResp]. *)
Definition fetchMercuryTransactions (env : Env) (config : Config)
    (acct : MercuryAccount) : M (result (list MercuryTransaction)) :=
  let* now := timeNow env in
  let start := fetchStart config now in
  slog LevelDebug "Fetching Mercury transactions" [("account", acctName acct)] ;;
  let* n := interact env in
  let resp := fetchResp env n acct start in
  emit (Fetch acct start resp) ;;
  ret resp.

(** The events with which the loop over the accounts opens the turn of
    [acct] in world [w], and the answer of the fetch. *)
Definition fetchAt (env : Env) (config : Config) (acct : MercuryAccount)
    (w : World) : result (list MercuryTransaction) :=
  fetchResp env (S (tick w)) acct (fetchStart config (nowAt env w)).

Definition fetchEvents (env : Env) (config : Config) (acct : MercuryAccount)
    (w : World) : list Event :=
  [Log LevelDebug "Processing account" [("name", acctName acct)];
   Log LevelDebug "Fetching Mercury transactions" [("account", acctName acct)];
   Fetch acct (fetchStart config (nowAt env w)) (fetchAt env config acct w)].

(** The body that [createInvoiceNinjaTransaction] hands to the request. *)
Definition bankTX (config : Config) (tx : MercuryTransaction)
  : InvoiceNinjaBankTX :=
  let baseType :=
    if SFltb (S754_zero false) (Amount tx) then CREDIT else DEBIT in
  {| btAmount := SFabs (Amount tx);
     btDate := FormatDate (PostedAt tx);
     btDescription := BankDescription tx;
     btBankIntegrationID := bankIntegrationID config;
     btBaseType := baseType |}.

(** *** Building the request: [getRequest] *)

Record Request := mkRequest {
  reqMethod : string;
  reqURL : string;
  reqHeaders : list (string * string)
}.

(** The error of [json.Marshal] for the record, if any: a float that is
    not a number or is infinite has no JSON form. *)
Definition jsonMarshalError (body : InvoiceNinjaBankTX) : error :=
  match btAmount body with
  | S754_nan => Some "json: unsupported value: NaN"
  | S754_infinity false => Some "json: unsupported value: +Inf"
  | S754_infinity true => Some "json: unsupported value: -Inf"
  | _ => None
  end.

(** [rh.NewRequest(method, url, rawBody)].  Its type switch on [rawBody]
    knows nil, byte slices, buffers, readers and functions that return a
    reader; a value of any other type, such as the struct
    [InvoiceNinjaBankTX], is refused.  With a nil body the request is
    the one of [http.NewRequest]. *)
Definition rhNewRequest (method url : string)
    (rawBody : option InvoiceNinjaBankTX) : result Request :=
  match rawBody with
  | Some _ => Err "cannot handle type main.InvoiceNinjaBankTX"
  | None => Ok (mkRequest method url [])
  end.

(** [getRequest].  The bytes of [json.Marshal] are bound by [:=] to a
    new [body] that lives in the block of the [if] only (and is nil when
    [json.Marshal] fails, which prints as the empty text); the call of
    [rh.NewRequest] after the block is given the parameter [body]
    itself. *)
Definition getRequest (method url : string) (headers : list (string * string))
    (body : option InvoiceNinjaBankTX) : result Request :=
  match match body with
        | Some b => jsonMarshalError b
        | None => None
        end with
  | Some err =>
      Err ("error marshaling body: " +:+ method +:+ " " +:+ url +:+ ": "
           +:+ "" +:+ " " +:+ err)
  | None =>
      match rhNewRequest method url body with
      | Err err =>
          Err ("error creating request: " +:+ method +:+ " " +:+ url +:+ ": "
               +:+ err)
      | Ok req =>
          Ok (mkRequest (reqMethod req) (reqURL req)
                (reqHeaders req ++ headers ++
                 match body with
                 | Some _ => [("Content-Type", "application/json")]
                 | None => []
                 end))
      end
  end.

(** [getInvoiceNinjaRequest] *)
Definition getInvoiceNinjaRequest (config : Config) (method url : string)
    (body : option InvoiceNinjaBankTX) : result Request :=
  getRequest method (InvoiceNinjaURL config +:+ "/api/v1" +:+ url)
    [("X-API-Token", InvoiceNinjaToken config);
     ("X-Requested-With", "XMLHttpRequest")]
    body.

(** [createInvoiceNinjaTransaction].  When the request cannot be built
    the function returns at once; otherwise [submitRequest] sends it and
    the answer is that of the oracle [postResp]. *)
Definition createInvoiceNinjaTransaction (env : Env) (config : Config)
    (tx : MercuryTransaction) : M error :=
  slog LevelDebug "Creating bank transaction in InvoiceNinja"
    [("description", BankDescription tx)] ;;
  let body := bankTX config tx in
  match getInvoiceNinjaRequest config "POST" "/bank_transactions" (Some body)
  with
  | Err e => emit (Post tx body (Some e)) ;; ret (Some e)
  | Ok _ =>
      let* n := interact env in
      let resp := postResp env n body in
      emit (Post tx body resp) ;;
      ret resp
  end.

(** The error with which [createInvoiceNinjaTransaction] returns for
    [tx]: that of [getRequest]. *)
Definition requestError (config : Config) (tx : MercuryTransaction) : string :=
  match getInvoiceNinjaRequest config "POST" "/bank_transactions"
          (Some (bankTX config tx)) with
  | Err e => e
  | Ok _ => ""
  end.

(** ** The reconciliation loop: [syncTransactions] *)

(** The loop over the transactions of one account.  The result is the
    error that ended the function, if any, the map, and the counter
    [processed]. *)
Fixpoint syncTxs (env : Env) (config : Config) (txs : list MercuryTransaction)
    (state : Ledger) (processed : Z) : M (error * Ledger * Z) :=
  match txs with
  | [] => ret (None, state, processed)
  | tx :: rest =>
      match state !! ID tx with
      | Some _ =>
          slog LevelDebug "Skipping already processed transaction"
            [("id", ID tx)] ;;
          syncTxs env config rest state processed
      | None =>
          let* err := createInvoiceNinjaTransaction env config tx in
          match err with
          | Some e => ret (Some e, state, processed)
          | None =>
              let* now := timeNow env in
              syncTxs env config rest (<[ID tx := now]> state) (processed + 1)
          end
      end
  end.

(** The loop over the accounts. *)
Fixpoint syncAccounts (env : Env) (config : Config)
    (accts : list MercuryAccount) (state : Ledger) : M (error * Ledger) :=
  match accts with
  | [] => ret (None, state)
  | acct :: rest =>
      slog LevelDebug "Processing account" [("name", acctName acct)] ;;
      let* resp := fetchMercuryTransactions env config acct in
      match resp with
      | Err e =>
          slog LevelError "Error fetching transactions"
            [("account", acctName acct); ("error", e)] ;;
          syncAccounts env config rest state
      | Ok [] => syncAccounts env config rest state
      | Ok txs =>
          slog LevelDebug "Processing transactions"
            [("account", acctName acct)] ;;
          let* (err, state, processed) := syncTxs env config txs state 0 in
          match err with
          | Some e => ret (Some e, state)
          | None =>
              (if 0 <? processed
               then slog LevelInfo "Account sync completed"
                      [("account", acctName acct)]
               else ret tt) ;;
              syncAccounts env config rest state
          end
      end
  end.

(** The cutoff of the pruning loop, [now.AddDate(0, 0, -7)]. *)
Definition cutoffOf (now : Time) : Time := AddDays now (- retentionDays).

Definition syncTransactions (env : Env) (config : Config) (state : Ledger)
  : M (error * Ledger) :=
  let* now := timeNow env in
  let cutoffTime := cutoffOf now in
  let state := pruneLoop cutoffTime state in
  let* (err, state) := syncAccounts env config (mercuryAccounts config) state in
  match err with
  | Some e => ret (Some e, state)
  | None => slog LevelDebug "Sync completed" [] ;; ret (None, state)
  end.

(** ** The scheduler: the loop of [main] *)

(** [time.Duration(config.SyncIntervalHours) * time.Hour] *)
Definition syncInterval (config : Config) : Z :=
  Int64.mul (SyncIntervalHours config) nsPerHour.

(** One turn of the [for] loop.  Returns the map and [nextSync]. *)
Definition mainIter (env : Env) (config : Config) (state : Ledger)
  : M (Ledger * Time) :=
  let* (err, state) := syncTransactions env config state in
  (match err with
   | Some e => slog LevelError "Error in sync" [("error", e)]
   | None =>
       let* err := saveState env state in
       match err with
       | Some e => slog LevelError "Error saving state" [("error", e)]
       | None => ret tt
       end
   end) ;;
  let* now := timeNow env in
  let nextSync := Add now (syncInterval config) in
  slog LevelDebug "Waiting for next sync" [] ;;
  let* now' := timeNow env in
  timeSleep env (Sub nextSync now') ;;
  ret (state, nextSync).

(** What one turn of the loop did. *)
Record Cycle := mkCycle {
  cycleStart : Z;            (* the clock when the turn began *)
  cycleErr : error;          (* what [syncTransactions] returned *)
  cycleTrace : list Event;
  cycleNextSync : Time;
  cycleLedger : Ledger;      (* the map in memory when the turn ended *)
  cycleWorld : World         (* the world when the turn ended *)
}.

(** The first [n] turns of the loop, which has no exit. *)
Fixpoint mainLoop (env : Env) (config : Config) (n : nat) (state : Ledger)
    (w : World) : list Cycle :=
  match n with
  | O => []
  | S n' =>
      let '(state', nextSync, w', t) := mainIter env config state w in
      {| cycleStart := clock w;
         cycleErr := fst (fst (fst (syncTransactions env config state w)));
         cycleTrace := t; cycleNextSync := nextSync;
         cycleLedger := state'; cycleWorld := w' |}
      :: mainLoop env config n' state' w'
  end.


(** ** Reading traces *)

Definition isPostFor (id : string) (e : Event) : bool :=
  match e with
  | Post tx _ _ => String.eqb (ID tx) id
  | _ => false
  end.

(** The calls of [createInvoiceNinjaTransaction] for transaction [id]. *)
Definition postsFor (id : string) (t : list Event) : list Event :=
  List.filter (isPostFor id) t.

Definition isPost (e : Event) : bool :=
  match e with
  | Post _ _ _ => true
  | _ => false
  end.

(** All calls of [createInvoiceNinjaTransaction] of a trace. *)
Definition posts (t : list Event) : list Event := List.filter isPost t.

(** The ids for which [createInvoiceNinjaTransaction] was called, in
    order. *)
Definition postedIDs (t : list Event) : list string :=
  flat_map (fun e => match e with Post tx _ _ => [ID tx] | _ => [] end) t.

(** The map the posting loops of a cycle start from: the map [main]
    holds, pruned at the first clock reading of the cycle. *)
Definition prunedAt (env : Env) (w : World) (state : Ledger) : Ledger :=
  pruneLoop (cutoffOf (nowAt env w)) state.

(** The four results of running one cycle in world [w]: the error
    returned, the map left in memory, the world and the trace. *)
Definition syncErr (env : Env) (config : Config) (state : Ledger) (w : World)
  : error := fst (fst (fst (syncTransactions env config state w))).
Definition syncLedger (env : Env) (config : Config) (state : Ledger)
    (w : World) : Ledger :=
  snd (fst (fst (syncTransactions env config state w))).
Definition syncWorld (env : Env) (config : Config) (state : Ledger)
    (w : World) : World :=
  snd (fst (syncTransactions env config state w)).
Definition syncTrace (env : Env) (config : Config) (state : Ledger)
    (w : World) : list Event :=
  snd (syncTransactions env config state w).

(** The parts of one turn of the loop of [main], in order: what is done
    with the result of the cycle, the world once that is done, the time
    computed for the next cycle, the duration handed to [time.Sleep], and
    the world in which the next turn begins. *)
Definition persistStep (env : Env) (state : Ledger) (err : error) (w : World)
  : World * list Event :=
  match err with
  | Some e => (w, [Log LevelError "Error in sync" [("error", e)]])
  | None =>
      let '(serr, w', t) := saveState env state w in
      (w',
       t ++ match serr with
            | Some e => [Log LevelError "Error saving state" [("error", e)]]
            | None => []
            end)
  end.

Definition iterEnd (env : Env) (config : Config) (state : Ledger) (w : World)
  : World :=
  fst (persistStep env (syncLedger env config state w)
         (syncErr env config state w) (syncWorld env config state w)).

Definition iterNextSync (env : Env) (config : Config) (state : Ledger)
    (w : World) : Time :=
  Add (nowAt env (iterEnd env config state w)) (syncInterval config).

Definition iterSleep (env : Env) (config : Config) (state : Ledger)
    (w : World) : Z :=
  Sub (iterNextSync env config state w)
    (nowAt env (advance env (iterEnd env config state w))).

Definition iterWake (env : Env) (config : Config) (state : Ledger)
    (w : World) : World :=
  let w4 := advance env (advance env (iterEnd env config state w)) in
  {| tick := S (tick w4);
     clock := clock w4 + Z.max (iterSleep env config state w) 0
              + latency env (tick w4);
     disk := disk w4 |}.

Definition iterTrace (env : Env) (config : Config) (state : Ledger)
    (w : World) : list Event :=
  syncTrace env config state w ++
  snd (persistStep env (syncLedger env config state w)
         (syncErr env config state w) (syncWorld env config state w)) ++
  [Log LevelDebug "Waiting for next sync" [];
   Sleep (iterSleep env config state w)].




(** What a stretch of the posting loops does to the map, read off its
    trace: [st] is the map before, [st'] the map after, [err] the error
    the stretch ended with. *)
Record PostingRun (config : Config) (st : Ledger) (err : error)
    (st' : Ledger) (t : list Event) : Prop := {
  run_preserve : forall id ts, st !! id = Some ts -> st' !! id = Some ts;
  run_fresh : forall id, id ∈ postedIDs t -> st !! id = None;
  run_nodup : NoDup (postedIDs t);
  run_recorded : forall tx body,
    Post tx body None ∈ t -> is_Some (st' !! ID tx);
  run_origin : forall id, is_Some (st' !! id) ->
    is_Some (st !! id) \/
    exists tx body, ID tx = id /\ Post tx body None ∈ t;
  run_completed : err = None ->
    forall tx body r, Post tx body r ∈ t -> r = None;
  run_aborted : forall e, err = Some e ->
    exists t0 tx body, t = t0 ++ [Post tx body (Some e)] /\
      forall tx' body' r, Post tx' body' r ∈ t0 -> r = None;
  run_body : forall tx body r, Post tx body r ∈ t -> body = bankTX config tx
}.

(** ** Start-up: the rest of [main] *)

Record BankIntegration := mkIntegration {
  igID : string;
  igProviderName : string
}.

(** The search loop of [fetchBankIntegrationID]: the id of the first
    integration of the answer whose provider name is [provider]. *)
Fixpoint findIntegration (provider : string) (igs : list BankIntegration)
  : option string :=
  match igs with
  | [] => None
  | ig :: rest =>
      if String.eqb (igProviderName ig) provider then Some (igID ig)
      else findIntegration provider rest
  end.

Definition withBankIntegrationID (c : Config) (id : string) : Config :=
  {| MercuryAPIKey := MercuryAPIKey c;
     InvoiceNinjaToken := InvoiceNinjaToken c;
     InvoiceNinjaURL := InvoiceNinjaURL c;
     BankProvider := BankProvider c;
     SyncIntervalHours := SyncIntervalHours c;
     SyncStartDaysAgo := SyncStartDaysAgo c;
     LogLevel := LogLevel c;
     stateFilePath := stateFilePath c;
     bankIntegrationID := id;
     mercuryAccounts := mercuryAccounts c |}.

Definition withMercuryAccounts (c : Config) (accts : list MercuryAccount)
  : Config :=
  {| MercuryAPIKey := MercuryAPIKey c;
     InvoiceNinjaToken := InvoiceNinjaToken c;
     InvoiceNinjaURL := InvoiceNinjaURL c;
     BankProvider := BankProvider c;
     SyncIntervalHours := SyncIntervalHours c;
     SyncStartDaysAgo := SyncStartDaysAgo c;
     LogLevel := LogLevel c;
     stateFilePath := stateFilePath c;
     bankIntegrationID := bankIntegrationID c;
     mercuryAccounts := accts |}.

(** [fetchBankIntegrationID], given the answer [resp] of the request
    for the list of integrations; the configuration is written only when
    an integration is found. *)
Definition fetchBankIntegrationID (resp : result (list BankIntegration))
    (config : Config) : M (error * Config) :=
  slog LevelDebug "Fetching InvoiceNinja bank integration" [] ;;
  match resp with
  | Err e => ret (Some e, config)
  | Ok igs =>
      match findIntegration (BankProvider config) igs with
      | Some id =>
          slog LevelDebug "Found bank integration"
            [("provider", BankProvider config); ("id", id)] ;;
          ret (None, withBankIntegrationID config id)
      | None =>
          ret (Some ("no bank integration found for provider: "
                     +:+ BankProvider config), config)
      end
  end.

(** [fetchMercuryAccounts], given the answer of the request. *)
Definition fetchMercuryAccounts (resp : result (list MercuryAccount))
    (config : Config) : M (error * Config) :=
  slog LevelDebug "Fetching Mercury accounts" [] ;;
  match resp with
  | Err e => ret (Some e, config)
  | Ok accts => ret (None, withMercuryAccounts config accts)
  end.

(** *** Logging: [setupLog] *)

(** The values of [slog.Level]. *)
Definition slogLevelDebug : Z := -4.
Definition slogLevelInfo : Z := 0.
Definition slogLevelWarn : Z := 4.
Definition slogLevelError : Z := 8.

(** The level [setupLog] gives the handler; [toLower] is
    [strings.ToLower]. *)
Definition setupLog (toLower : string -> string) (logLevel : string) : Z :=
  let l := toLower logLevel in
  if String.eqb l "debug" then slogLevelDebug
  else if String.eqb l "info" then slogLevelInfo
  else if String.eqb l "warn" || String.eqb l "warning" then slogLevelWarn
  else if String.eqb l "error" then slogLevelError
  else slogLevelInfo.

Definition levelValue (lvl : Level) : Z :=
  match lvl with
  | LevelDebug => slogLevelDebug
  | LevelInfo => slogLevelInfo
  | LevelError => slogLevelError
  end.

(** The handler writes a record whose level is at least its own. *)
Definition written (minLevel : Z) (e : Event) : bool :=
  match e with
  | Log lvl _ _ => minLevel <=? levelValue lvl
  | _ => false
  end.

(** The log lines a trace leaves on standard output. *)
Definition logOutput (minLevel : Z) (t : list Event) : list Event :=
  List.filter (written minLevel) t.

(** [main], for a configuration file that is read and decoded as [f]:
    the start-up steps, each of which ends the process when it fails,
    and then the first [n] turns of the loop.  [igResp] and [acctResp]
    are the answers to the two requests of the start-up.
    [setupLog] and [setupHttpClient], called after [loadConfig], choose
    what the logger writes and how requests are retried; they touch
    neither the configuration nor the ledger and have no step here. *)
Definition mainProgram (parseRequestURI : string -> error) (f : ConfigFile)
    (dataDir flagURL : string)
    (igResp : result (list BankIntegration))
    (acctResp : result (list MercuryAccount))
    (env : Env) (n : nat) (w : World) : result (list Cycle) :=
  match loadConfig parseRequestURI (Object f) dataDir flagURL with
  | Err e => Err ("Error loading configuration: " +:+ e)
  | Ok config =>
      match loadState (disk w) with
      | Err e => Err ("Error loading state: " +:+ e)
      | Ok state =>
          let '(err, config, w, _) := fetchBankIntegrationID igResp config w in
          match err with
          | Some e => Err ("Error fetching bank integration ID: " +:+ e)
          | None =>
              let '(err, config, w, _) :=
                fetchMercuryAccounts acctResp config w in
              match err with
              | Some e => Err ("Error fetching Mercury accounts: " +:+ e)
              | None => Ok (mainLoop env config n state w)
              end
          end
      end
  end.

(** ** Reference functions *)

(** The ids of the transactions of [txs] that are not in [seen], each at
    its first occurrence, in the order of the list. *)
Fixpoint newIDs (seen : gset string) (txs : list MercuryTransaction)
  : list string :=
  match txs with
  | [] => []
  | tx :: rest =>
      if decide (ID tx ∈ seen) then newIDs seen rest
      else ID tx :: newIDs ({[ID tx]} ∪ seen) rest
  end.

(** The clock reading after the work of a turn, from which [nextSync]
    was computed. *)
Definition cycleEndWall (config : Config) (c : Cycle) : Z :=
  wall (cycleNextSync c) - syncInterval config.

(** ** Scenarios

    Concrete configurations, environments and worlds on which the
    statements below are run. *)

Module Scenario.

Definition acctA : MercuryAccount := mkAccount "acc-a" "Checking".
Definition acctB : MercuryAccount := mkAccount "acc-b" "Savings".

Definition day (n : Z) : Z := n * nsPerDay.

(** +125.50 and -40.00 as binary64 values. *)
Definition plus125_50 : spec_float := S754_finite false 8831277394296832 (-46).
Definition minus40 : spec_float := S754_finite true 5629499534213120 (-47).

Definition tx1 : MercuryTransaction :=
  mkTx "tx-1" plus125_50 "Invoice 17" (mkTime (day 99) 0).
Definition tx2 : MercuryTransaction :=
  mkTx "tx-2" minus40 "Card fee" (mkTime (day 99 + 3600 * nsPerSecond) 0).

Definition config (accts : list MercuryAccount) (lookback hours : Z)
  : Config :=
  {| MercuryAPIKey := "key"; InvoiceNinjaToken := "token";
     InvoiceNinjaURL := "https://ninja.example"; BankProvider := "Mercury";
     SyncIntervalHours := hours; SyncStartDaysAgo := lookback;
     LogLevel := "info"; stateFilePath := "/data/sync_state.json";
     bankIntegrationID := "bank-1"; mercuryAccounts := accts |}.

(** Every interaction takes one second. *)
Definition second : nat -> Z := fun _ => nsPerSecond.

(** The world at day 100, before any interaction. *)
Definition w0 : World := mkWorld 0 (day 100) NoFile.

(** Both accounts answer; the server would accept every post, and
    every write of the state file succeeds. *)
Definition envOk : Env :=
  {| latency := second; localZone := 0;
     fetchResp := fun _ a _ =>
       if String.eqb (acctID a) "acc-a" then Ok [tx1] else Ok [tx2];
     postResp := fun _ _ => None;
     saveResp := fun _ => Written |}.

(** One account with two transactions; the server would accept the
    record of the first and refuse that of the second. *)
Definition envSecondPostFails : Env :=
  {| latency := second; localZone := 0;
     fetchResp := fun _ _ _ => Ok [tx1; tx2];
     postResp := fun _ body =>
       if String.eqb (btDescription body) "Invoice 17" then None
       else Some "500";
     saveResp := fun _ => Written |}.


(** A transaction posted on day 91, and a map that holds it since day
    92, eight days before [w0]; the source still reports it when the
    lookback window is 30 days. *)
Definition tx0 : MercuryTransaction :=
  mkTx "tx-0" plus125_50 "Invoice 16" (mkTime (day 91) 0).
Definition staleLedger : Ledger := {[ "tx-0" := mkTime (day 92) 0 ]}.
Definition envOld : Env :=
  {| latency := second; localZone := 0;
     fetchResp := fun _ _ _ => Ok [tx0];
     postResp := fun _ _ => None;
     saveResp := fun _ => Written |}.



End Scenario.

(** * Properties *)

(** ** Pruning *)

Lemma pruneLoop_lookup (cutoffTime : Time) (m : Ledger) (id : string) :
  pruneLoop cutoffTime m !! id =
  match m !! id with
  | Some ts => if Before ts cutoffTime then None else Some ts
  | None => None
  end.
Proof.
  unfold pruneLoop.
  assert (G : forall b : Ledger,
    map_fold (fun i x acc => if Before x cutoffTime then delete i acc else acc)
      b m !! id =
    match m !! id with
    | Some ts => if Before ts cutoffTime then None else b !! id
    | None => b !! id
    end).
  { intros b.
    apply (map_fold_weak_ind (fun (r : Ledger) (m' : Ledger) =>
      r !! id = match m' !! id with
                | Some ts => if Before ts cutoffTime then None else b !! id
                | None => b !! id
                end)).
    - by rewrite lookup_empty.
    - intros i x m' r Hi IH.
      destruct (decide (i = id)) as [->|Hne].
      + rewrite lookup_insert_eq. rewrite Hi in IH.
        destruct (Before x cutoffTime); [by rewrite lookup_delete_eq | done].
      + rewrite lookup_insert_ne by done.
        destruct (Before x cutoffTime); [by rewrite lookup_delete_ne | done]. }
  rewrite G. destruct (m !! id) as [ts|] eqn:E; [|done].
  by destruct (Before ts cutoffTime).
Qed.

Lemma pruneLoop_None cutoffTime (m : Ledger) id :
  m !! id = None -> pruneLoop cutoffTime m !! id = None.
Proof. intros H. by rewrite pruneLoop_lookup, H. Qed.

Lemma pruneLoop_Some cutoffTime (m : Ledger) id ts :
  pruneLoop cutoffTime m !! id = Some ts <->
  m !! id = Some ts /\ Before ts cutoffTime = false.
Proof.
  rewrite pruneLoop_lookup. destruct (m !! id) as [ts'|].
  - destruct (Before ts' cutoffTime) eqn:E; split.
    + discriminate.
    + intros [[= ->] H2]. congruence.
    + by intros [= ->].
    + by intros [H _].
  - split; [discriminate | by intros [H _]].
Qed.

Lemma pruneLoop_filter cutoffTime (m : Ledger) :
  pruneLoop cutoffTime m =
  filter (fun kv => Before (snd kv) cutoffTime = false) m.
Proof.
  apply map_eq. intros id. apply option_eq. intros ts.
  rewrite pruneLoop_Some, map_lookup_filter_Some. reflexivity.
Qed.

(** ** Traces *)

Lemma postedIDs_app t1 t2 :
  postedIDs (t1 ++ t2) = postedIDs t1 ++ postedIDs t2.
Proof. unfold postedIDs. apply flat_map_app. Qed.

Lemma in_postedIDs id t :
  id ∈ postedIDs t <->
  exists tx body r, Post tx body r ∈ t /\ ID tx = id.
Proof.
  induction t as [|e t IH].
  - split; [by intros ?%elem_of_nil|].
    by intros (? & ? & ? & ?%elem_of_nil & _).
  - assert (Hrest : id ∈ postedIDs t ->
      exists tx body r, Post tx body r ∈ e :: t /\ ID tx = id).
    { intros (tx & body & r & Hin & Hid)%IH.
      exists tx, body, r. split; [by apply elem_of_cons; right | done]. }
    split.
    + destruct e; simpl; try exact Hrest.
      intros [->|Hin]%elem_of_cons; [|by apply Hrest].
      eexists _, _, _. split; [apply elem_of_cons; by left | done].
    + intros (tx & body & r & [<-|Hin]%elem_of_cons & Hid).
      * simpl. apply elem_of_cons. by left.
      * assert (id ∈ postedIDs t) by (apply IH; eauto).
        destruct e; simpl; try done. apply elem_of_cons. by right.
Qed.

Lemma postsFor_app id t1 t2 :
  postsFor id (t1 ++ t2) = postsFor id t1 ++ postsFor id t2.
Proof. unfold postsFor. apply List.filter_app. Qed.

Lemma postsFor_not_posted id t :
  id ∉ postedIDs t -> postsFor id t = [].
Proof.
  induction t as [|e t IH]; [done|]. intros Hn. simpl.
  destruct e; simpl in *; try (by apply IH).
  apply not_elem_of_cons in Hn as [Hne Hn].
  destruct (String.eqb_spec (ID tx) id) as [Heq|_]; [done | by apply IH].
Qed.

Lemma postsFor_NoDup id t :
  NoDup (postedIDs t) -> (length (postsFor id t) <= 1)%nat.
Proof.
  induction t as [|e t IH]; simpl; [lia|]. intros Hnd.
  destruct e; simpl in *; try (by apply IH).
  apply NoDup_cons in Hnd as [Hnotin Hnd].
  destruct (String.eqb_spec (ID tx) id) as [Heq|Hne]; [|by apply IH].
  subst id. simpl. rewrite postsFor_not_posted by done. simpl. lia.
Qed.

Lemma posts_nil_postedIDs t : posts t = [] <-> postedIDs t = [].
Proof.
  induction t as [|e t IH]; [done|].
  destruct e; simpl; try apply IH. split; discriminate.
Qed.

(** Taking a membership in a trace apart, and finding an event in one. *)
Ltac elems :=
  repeat match goal with
  | H : _ ∈ [] |- _ => by apply elem_of_nil in H
  | H : _ ∈ _ :: _ |- _ =>
      apply elem_of_cons in H as [H|H]; [try discriminate H|]
  | H : _ ∈ _ ++ _ |- _ => apply elem_of_app in H as [H|H]
  | H : _ ∈ (if ?b then _ else _) |- _ => destruct b
  end.

Ltac in_trace :=
  repeat first
    [ assumption
    | apply list_elem_of_here
    | apply list_elem_of_further
    | apply elem_of_app; left; assumption
    | apply elem_of_app; right ].

(** ** Stretches of the posting loops compose *)

Section Runs.

Context (env : Env) (config : Config).

Lemma run_silent (st : Ledger) t :
  postedIDs t = [] -> PostingRun config st None st t.
Proof.
  intros Hno.
  assert (Hnp : forall tx body r, Post tx body r ∉ t).
  { intros tx body r Hin.
    assert (Hid : ID tx ∈ postedIDs t) by (apply in_postedIDs; eauto).
    rewrite Hno in Hid. by apply elem_of_nil in Hid. }
  split; try done.
  - intros id Hin. rewrite Hno in Hin. by apply elem_of_nil in Hin.
  - rewrite Hno. constructor.
  - intros tx body Hin. by apply Hnp in Hin.
  - intros id ?. by left.
  - intros _ tx body r Hin. by apply Hnp in Hin.
  - intros tx body r Hin. by apply Hnp in Hin.
Qed.

Lemma run_post_failed (st : Ledger) tx e l :
  st !! ID tx = None ->
  PostingRun config st (Some e) st
    [Log LevelDebug l [("description", BankDescription tx)];
     Post tx (bankTX config tx) (Some e)].
Proof.
  intros Hfresh.
  assert (Hone : forall tx' body r,
    Post tx' body r ∈ [Log LevelDebug l [("description", BankDescription tx)];
                       Post tx (bankTX config tx) (Some e)] ->
    tx' = tx /\ body = bankTX config tx /\ r = Some e).
  { intros tx' body r Hin.
    apply elem_of_cons in Hin as [Heq|Hin]; [discriminate|].
    apply list_elem_of_singleton in Hin. by injection Hin as -> -> ->. }
  split; try done.
  - intros id Hin. simpl in Hin. apply list_elem_of_singleton in Hin. by subst.
  - simpl. apply NoDup_singleton.
  - intros tx' body Hin. by apply Hone in Hin as (_ & _ & ?).
  - intros id ?. by left.
  - intros e' [= <-].
    exists [Log LevelDebug l [("description", BankDescription tx)]], tx,
      (bankTX config tx).
    split; [done|]. intros tx' body' r Hin.
    apply list_elem_of_singleton in Hin. discriminate.
  - intros tx' body r Hin. by apply Hone in Hin as (-> & -> & _).
Qed.

(** A stretch that did not fail, followed by another one. *)
Lemma run_seq (st st1 st2 : Ledger) err t1 t2 :
  PostingRun config st None st1 t1 ->
  PostingRun config st1 err st2 t2 ->
  PostingRun config st err st2 (t1 ++ t2).
Proof.
  intros R1 R2.
  assert (Hall1 : forall tx body r, Post tx body r ∈ t1 -> r = None)
    by (by apply (run_completed _ _ _ _ _ R1)).
  split.
  - intros id ts H. by apply (run_preserve _ _ _ _ _ R2), (run_preserve _ _ _ _ _ R1).
  - intros id Hin. rewrite postedIDs_app in Hin.
    apply elem_of_app in Hin as [Hin|Hin].
    + by apply (run_fresh _ _ _ _ _ R1).
    + apply (run_fresh _ _ _ _ _ R2) in Hin.
      destruct (st !! id) as [ts|] eqn:E; [|done].
      apply (run_preserve _ _ _ _ _ R1) in E. congruence.
  - rewrite postedIDs_app. apply NoDup_app. split; [apply R1|].
    split; [|apply R2].
    intros id Hin1 Hin2.
    apply (run_fresh _ _ _ _ _ R2) in Hin2.
    apply in_postedIDs in Hin1 as (tx & body & r & Hin1 & <-).
    assert (r = None) as -> by (by eapply Hall1).
    apply (run_recorded _ _ _ _ _ R1) in Hin1 as [ts Hts]. congruence.
  - intros tx body Hin. apply elem_of_app in Hin as [Hin|Hin].
    + apply (run_recorded _ _ _ _ _ R1) in Hin as [ts Hts].
      exists ts. by apply (run_preserve _ _ _ _ _ R2).
    + by apply (run_recorded _ _ _ _ _ R2) in Hin.
  - intros id His.
    apply (run_origin _ _ _ _ _ R2) in His as [His|(tx & body & Hid & Hin)].
    + apply (run_origin _ _ _ _ _ R1) in His as [His|(tx & body & Hid & Hin)].
      * by left.
      * right. exists tx, body. split; [done|]. apply elem_of_app. by left.
    + right. exists tx, body. split; [done|]. apply elem_of_app. by right.
  - intros Herr tx body r Hin. apply elem_of_app in Hin as [Hin|Hin].
    + by eapply Hall1.
    + by eapply (run_completed _ _ _ _ _ R2).
  - intros e Herr.
    destruct (run_aborted _ _ _ _ _ R2 e Herr) as (t0 & tx & body & -> & Hok).
    exists (t1 ++ t0), tx, body. split; [by rewrite app_assoc|].
    intros tx' body' r Hin. apply elem_of_app in Hin as [Hin|Hin].
    + by eapply Hall1.
    + by eapply Hok.
  - intros tx body r Hin. apply elem_of_app in Hin as [Hin|Hin].
    + by eapply (run_body _ _ _ _ _ R1).
    + by eapply (run_body _ _ _ _ _ R2).
Qed.

End Runs.

(** ** The loop over the transactions of an account *)

Section Loops.

Context (env : Env) (config : Config).

Lemma timeNow_run w : timeNow env w = (nowAt env w, advance env w, []).
Proof. reflexivity. Qed.

(** No request with a body is ever built: the marshalled bytes are
    dropped at the end of the block that made them, and [rh.NewRequest]
    refuses the struct it is given in their place. *)
Lemma getRequest_with_body method url headers body :
  exists e, getRequest method url headers (Some body) = Err e.
Proof.
  unfold getRequest. destruct (jsonMarshalError body); by eexists.
Qed.

Lemma getInvoiceNinjaRequest_post tx :
  getInvoiceNinjaRequest config "POST" "/bank_transactions"
    (Some (bankTX config tx)) = Err (requestError config tx).
Proof.
  unfold requestError.
  destruct (getRequest_with_body "POST"
              (InvoiceNinjaURL config +:+ "/api/v1" +:+ "/bank_transactions")
              [("X-API-Token", InvoiceNinjaToken config);
               ("X-Requested-With", "XMLHttpRequest")]
              (bankTX config tx)) as [e He].
  unfold getInvoiceNinjaRequest. by rewrite He.
Qed.

(** Hence every call of [createInvoiceNinjaTransaction] returns the
    error of [getRequest], and returns it before anything is sent: the
    world is as it was. *)
Lemma createInvoiceNinjaTransaction_run tx w :
  createInvoiceNinjaTransaction env config tx w =
  (Some (requestError config tx), w,
   [Log LevelDebug "Creating bank transaction in InvoiceNinja"
      [("description", BankDescription tx)];
    Post tx (bankTX config tx) (Some (requestError config tx))]).
Proof.
  unfold createInvoiceNinjaTransaction.
  rewrite getInvoiceNinjaRequest_post. reflexivity.
Qed.

Lemma syncTxs_known tx rest (st : Ledger) p w ts :
  st !! ID tx = Some ts ->
  syncTxs env config (tx :: rest) st p w =
  let '(r, w', t) := syncTxs env config rest st p w in
  (r, w',
   Log LevelDebug "Skipping already processed transaction" [("id", ID tx)]
   :: t).
Proof.
  intros H. simpl. rewrite H. unfold bind, slog, emit.
  by destruct (syncTxs env config rest st p w) as [[r w'] t].
Qed.

Lemma syncTxs_post_failed tx rest (st : Ledger) p w :
  st !! ID tx = None ->
  syncTxs env config (tx :: rest) st p w =
  (Some (requestError config tx), st, p, w,
   [Log LevelDebug "Creating bank transaction in InvoiceNinja"
      [("description", BankDescription tx)];
    Post tx (bankTX config tx) (Some (requestError config tx))]).
Proof.
  intros H. cbn [syncTxs]. rewrite H. unfold bind at 1.
  rewrite createInvoiceNinjaTransaction_run. reflexivity.
Qed.

(** The two ways one transaction is handled. *)
Ltac step_tx tx st w :=
  let ts := fresh "ts" in
  let Hst := fresh "Hst" in
  destruct (st !! ID tx) as [ts|] eqn:Hst;
  [ rewrite (syncTxs_known _ _ _ _ _ ts Hst)
  | rewrite (syncTxs_post_failed _ _ _ _ _ Hst) ].

Lemma syncTxs_run txs (st : Ledger) p w err st' p' w' t :
  syncTxs env config txs st p w = (err, st', p', w', t) ->
  PostingRun config st err st' t.
Proof.
  revert st p w err st' p' w' t.
  induction txs as [|tx rest IH]; intros st p w err st' p' w' t.
  - intros [= <- <- <- <- <-]. by apply run_silent.
  - step_tx tx st w.
    + destruct (syncTxs env config rest st p w) as [[[[err0 st0] p0] w0] t0] eqn:E.
      intros [= <- <- <- <- <-].
      apply (run_seq config st st st0 err0 [_] t0); [by apply run_silent|].
      by eapply IH.
    + intros [= <- <- <- <- <-]. by apply run_post_failed.
Qed.

(** Every transaction of the list ends up in the map, unless a post
    failed. *)
Lemma syncTxs_covers txs (st : Ledger) p w err st' p' w' t tx :
  syncTxs env config txs st p w = (err, st', p', w', t) ->
  tx ∈ txs -> err = None -> is_Some (st' !! ID tx).
Proof.
  revert st p w err st' p' w' t.
  induction txs as [|tx0 rest IH]; intros st p w err st' p' w' t Hrun Hin Herr.
  - by apply elem_of_nil in Hin.
  - assert (Hkeep : forall st1 p1 w1 t1 ts,
      syncTxs env config rest st1 p1 w1 = (err, st', p', w', t1) ->
      st1 !! ID tx0 = Some ts -> is_Some (st' !! ID tx)).
    { intros st1 p1 w1 t1 ts Hrest Hts.
      apply elem_of_cons in Hin as [->|Hin].
      - exists ts. by apply (run_preserve _ _ _ _ _ (syncTxs_run _ _ _ _ _ _ _ _ _ Hrest)).
      - by eapply IH. }
    revert Hrun. step_tx tx0 st w.
    + destruct (syncTxs env config rest st p w) as [[[[err0 st0] p0] w0] t0] eqn:E.
      intros [= <- <- <- <- <-]. by eapply Hkeep.
    + intros [= <- <- <- <- <-]. discriminate.
Qed.

(** Posts are made for transactions of the list only. *)
Lemma syncTxs_posts_listed txs (st : Ledger) p w err st' p' w' t tx body r :
  syncTxs env config txs st p w = (err, st', p', w', t) ->
  Post tx body r ∈ t -> tx ∈ txs.
Proof.
  revert st p w err st' p' w' t.
  induction txs as [|tx0 rest IH]; intros st p w err st' p' w' t.
  - intros [= <- <- <- <- <-]. by intros ?%elem_of_nil.
  - step_tx tx0 st w.
    + destruct (syncTxs env config rest st p w) as [[[[err0 st0] p0] w0] t0] eqn:E.
      intros [= <- <- <- <- <-] [?|Hin]%elem_of_cons; [done|].
      apply elem_of_cons; right. by eapply IH.
    + intros [= <- <- <- <- <-] [?|Hin]%elem_of_cons; [done|].
      apply list_elem_of_singleton in Hin as [= -> _ _]. apply elem_of_cons; by left.
Qed.

(** The loop writes no file, and only fetch and log events come from
    elsewhere. *)
Lemma syncTxs_world txs (st : Ledger) p w err st' p' w' t :
  syncTxs env config txs st p w = (err, st', p', w', t) ->
  disk w' = disk w /\
  (forall a s r, Fetch a s r ∉ t) /\
  (forall msg attrs, Log LevelError msg attrs ∉ t).
Proof.
  revert st p w err st' p' w' t.
  induction txs as [|tx0 rest IH]; intros st p w err st' p' w' t.
  - intros [= <- <- <- <- <-]. repeat split; intros; by intros ?%elem_of_nil.
  - step_tx tx0 st w.
    + destruct (syncTxs env config rest st p w) as [[[[err0 st0] p0] w0] t0] eqn:E.
      intros [= <- <- <- <- <-]. apply IH in E as (Hd & Hf & Hl).
      repeat split; [done| |]; intros; intros [?|Hin]%elem_of_cons;
        try done; first [by eapply Hf | by eapply Hl].
    + intros [= <- <- <- <- <-].
      repeat split; intros;
        intros [?|[?|?%elem_of_nil]%elem_of_cons]%elem_of_cons; done.
Qed.

(** ** The loop over the accounts *)

Lemma syncAccounts_cons a rest (st : Ledger) w :
  syncAccounts env config (a :: rest) st w =
  let w2 := advance env (advance env w) in
  let pre := fetchEvents env config a w in
  match fetchAt env config a w with
  | Err e =>
      let '(r, w', t) := syncAccounts env config rest st w2 in
      (r, w',
       pre ++ Log LevelError "Error fetching transactions"
                [("account", acctName a); ("error", e)] :: t)
  | Ok [] =>
      let '(r, w', t) := syncAccounts env config rest st w2 in
      (r, w', pre ++ t)
  | Ok txs =>
      let '(err, st1, p1, w1, t1) := syncTxs env config txs st 0 w2 in
      let mid :=
        Log LevelDebug "Processing transactions" [("account", acctName a)]
        :: t1 in
      match err with
      | Some e => (Some e, st1, w1, pre ++ mid)
      | None =>
          let '(r, w', t) := syncAccounts env config rest st1 w1 in
          (r, w',
           pre ++ mid ++
           (if 0 <? p1
            then [Log LevelInfo "Account sync completed"
                    [("account", acctName a)]]
            else []) ++ t)
      end
  end.
Proof.
  cbn [syncAccounts]. unfold fetchEvents, fetchAt.
  unfold bind at 1. unfold slog at 1, emit at 1.
  unfold bind at 1. unfold fetchMercuryTransactions.
  unfold bind at 1. rewrite timeNow_run.
  unfold bind at 1. unfold slog at 1, emit at 1.
  unfold bind at 1. unfold interact at 1.
  unfold bind at 1. unfold emit at 1. unfold ret at 1.
  cbn [tick advance fst snd].
  destruct (fetchResp env (S (tick w)) a (fetchStart config (nowAt env w)))
    as [[|tx txs]|e] eqn:Hresp.
  - by destruct (syncAccounts env config rest st _) as [[r w'] t].
  - unfold bind at 1. unfold slog at 1, emit at 1. unfold bind at 1.
    destruct (syncTxs env config (tx :: txs) st 0 _)
      as [[[[[e|] st1] p1] w1] t1].
    + unfold ret. simpl. by rewrite app_nil_r.
    + unfold bind at 1.
      destruct (syncAccounts env config rest st1 _) as [[r w'] t] eqn:E.
      destruct (0 <? p1); unfold slog, emit, ret; simpl; rewrite E; simpl.
      * reflexivity.
      * reflexivity.
  - unfold bind at 1. unfold slog at 1, emit at 1.
    by destruct (syncAccounts env config rest st _) as [[r w'] t].
Qed.

Lemma run_after_silent (st st' : Ledger) err t1 t2 :
  postedIDs t1 = [] ->
  PostingRun config st err st' t2 ->
  PostingRun config st err st' (t1 ++ t2).
Proof. intros H R. eapply run_seq; [by apply run_silent | done]. Qed.

Lemma postedIDs_fetchEvents a w : postedIDs (fetchEvents env config a w) = [].
Proof. reflexivity. Qed.

(** The ways the turn of one account goes. *)
Ltac step_acct a rest st w :=
  let e := fresh "e" in
  let tx := fresh "tx" in
  let txs := fresh "txs" in
  let Hf := fresh "Hf" in
  rewrite (syncAccounts_cons a rest st w); cbv zeta;
  destruct (fetchAt env config a w) as [[|tx txs]|e] eqn:Hf.

Lemma syncAccounts_run accts (st : Ledger) w err st' w' t :
  syncAccounts env config accts st w = (err, st', w', t) ->
  PostingRun config st err st' t.
Proof.
  revert st w err st' w' t.
  induction accts as [|a rest IH]; intros st w err st' w' t.
  - intros [= <- <- <- <-]. by apply run_silent.
  - step_acct a rest st w.
    + destruct (syncAccounts env config rest st _) as [[[r0 st0] w0] t0] eqn:E.
      intros [= <- <- <- <-].
      apply (run_after_silent _ _ _ (fetchEvents env config a w) t0);
        [done | by eapply IH].
    + destruct (syncTxs env config (tx :: txs) st 0 _)
        as [[[[[e|] st1] p1] w1] t1] eqn:E1.
      * intros [= <- <- <- <-].
        apply (run_after_silent _ _ _ (fetchEvents env config a w) (_ :: t1));
          [done|].
        apply (run_after_silent _ _ _ [_] t1); [done | by eapply syncTxs_run].
      * destruct (syncAccounts env config rest st1 w1)
          as [[[r0 st0] w0] t0] eqn:E.
        intros [= <- <- <- <-].
        apply (run_after_silent _ _ _ (fetchEvents env config a w)
                 ((_ :: t1) ++ _ ++ t0)); [done|].
        apply (run_seq config st st1 st0 r0 (_ :: t1)).
        { apply (run_after_silent _ _ _ [_] t1); [done|].
          by eapply syncTxs_run. }
        apply run_after_silent; [by destruct (0 <? p1) | by eapply IH].
    + destruct (syncAccounts env config rest st _) as [[[r0 st0] w0] t0] eqn:E.
      intros [= <- <- <- <-].
      apply (run_after_silent _ _ _ (fetchEvents env config a w) (_ :: t0));
        [done|].
      apply (run_after_silent _ _ _ [_] t0); [done | by eapply IH].
Qed.

(** The loop over the accounts writes no file. *)
Lemma syncAccounts_disk accts (st : Ledger) w err st' w' t :
  syncAccounts env config accts st w = (err, st', w', t) ->
  disk w' = disk w.
Proof.
  revert st w err st' w' t.
  induction accts as [|a rest IH]; intros st w err st' w' t.
  - by intros [= <- <- <- <-].
  - step_acct a rest st w.
    + destruct (syncAccounts env config rest st _) as [[[r0 st0] w0] t0] eqn:E.
      intros [= <- <- <- <-]. by apply IH in E.
    + destruct (syncTxs env config (tx :: txs) st 0 _)
        as [[[[[e|] st1] p1] w1] t1] eqn:E1;
        apply syncTxs_world in E1 as (Hd & _ & _).
      * by intros [= <- <- <- <-].
      * destruct (syncAccounts env config rest st1 w1)
          as [[[r0 st0] w0] t0] eqn:E.
        intros [= <- <- <- <-]. apply IH in E. by rewrite E, Hd.
    + destruct (syncAccounts env config rest st _) as [[[r0 st0] w0] t0] eqn:E.
      intros [= <- <- <- <-]. by apply IH in E.
Qed.

(** Every fetch of the trace is the answer of the source for an account
    of the list, and a failed one is followed by its error log. *)
Lemma syncAccounts_fetches accts (st : Ledger) w err st' w' t a s r :
  syncAccounts env config accts st w = (err, st', w', t) ->
  Fetch a s r ∈ t ->
  a ∈ accts /\ (exists n, r = fetchResp env n a s) /\
  (forall e, r = Err e ->
     Log LevelError "Error fetching transactions"
       [("account", acctName a); ("error", e)] ∈ t).
Proof.
  revert st w err st' w' t.
  induction accts as [|a0 rest IH]; intros st w err st' w' t.
  - intros [= <- <- <- <-] Hin. elems.
  - assert (Hhere : forall t0 : list Event,
      (forall e, fetchAt env config a0 w = Err e ->
         Log LevelError "Error fetching transactions"
           [("account", acctName a0); ("error", e)] ∈ t0) ->
      Fetch a s r = Fetch a0 (fetchStart config (nowAt env w))
                      (fetchAt env config a0 w) ->
      a ∈ a0 :: rest /\ (exists n, r = fetchResp env n a s) /\
      (forall e, r = Err e ->
         Log LevelError "Error fetching transactions"
           [("account", acctName a); ("error", e)] ∈ t0)).
    { intros t0 Hlog [= -> -> ->]. split; [apply list_elem_of_here|].
      split; [by eexists|]. exact Hlog. }
    assert (Hlater : forall t0 t1 : list Event,
      (forall x, x ∈ t0 -> x ∈ t1) ->
      a ∈ rest /\ (exists n, r = fetchResp env n a s) /\
      (forall e, r = Err e ->
         Log LevelError "Error fetching transactions"
           [("account", acctName a); ("error", e)] ∈ t0) ->
      a ∈ a0 :: rest /\ (exists n, r = fetchResp env n a s) /\
      (forall e, r = Err e ->
         Log LevelError "Error fetching transactions"
           [("account", acctName a); ("error", e)] ∈ t1)).
    { intros t0 t1 Hsub (Ha & Hn & Hlog). split; [by apply list_elem_of_further|].
      split; [done|]. intros e He. by apply Hsub, Hlog. }
    step_acct a0 rest st w.
    + destruct (syncAccounts env config rest st _) as [[[r0 st0] w0] t0] eqn:E.
      intros [= <- <- <- <-] Hin. elems.
      * apply Hhere; [intros e'; discriminate | by rewrite ?Hf in Hin].
      * apply (Hlater t0); [intros; in_trace | by eapply IH].
    + destruct (syncTxs env config (tx :: txs) st 0 _)
        as [[[[[e|] st1] p1] w1] t1] eqn:E1;
        apply syncTxs_world in E1 as (_ & Hnf & _).
      * intros [= <- <- <- <-] Hin. elems;
          first [ by apply Hnf in Hin
                | apply Hhere; [intros e'; discriminate | by rewrite ?Hf in Hin] ].
      * destruct (syncAccounts env config rest st1 w1)
          as [[[r0 st0] w0] t0] eqn:E.
        intros [= <- <- <- <-] Hin. elems;
          first [ by apply Hnf in Hin
                | apply Hhere; [intros e'; discriminate | by rewrite ?Hf in Hin]
                | apply (Hlater t0); [intros; in_trace | by eapply IH] ].
    + destruct (syncAccounts env config rest st _) as [[[r0 st0] w0] t0] eqn:E.
      intros [= <- <- <- <-] Hin. elems.
      * apply Hhere; [|by rewrite ?Hf in Hin]. intros e' [= <-]. in_trace.
      * apply (Hlater t0); [intros; in_trace | by eapply IH].
Qed.

(** When no post failed, every transaction of every fetched list is in
    the map at the end. *)
Lemma syncAccounts_covers accts (st : Ledger) w st' w' t a s txs tx :
  syncAccounts env config accts st w = (None, st', w', t) ->
  Fetch a s (Ok txs) ∈ t -> tx ∈ txs -> is_Some (st' !! ID tx).
Proof.
  revert st w st' w' t.
  induction accts as [|a0 rest IH]; intros st w st' w' t.
  - intros [= <- <- <-] Hin. elems.
  - step_acct a0 rest st w.
    + destruct (syncAccounts env config rest st _) as [[[r0 st0] w0] t0] eqn:E.
      intros [= -> <- <- <-] Hin Htx. elems.
      * rewrite ?Hf in Hin. injection Hin as _ _ ->. elems.
      * by eapply IH.
    + destruct (syncTxs env config (tx0 :: txs0) st 0 _)
        as [[[[[e|] st1] p1] w1] t1] eqn:E1; [discriminate|].
      destruct (syncAccounts env config rest st1 w1)
        as [[[r0 st0] w0] t0] eqn:E.
      intros [= -> <- <- <-] Hin Htx.
      pose proof (syncTxs_world _ _ _ _ _ _ _ _ _ E1) as (_ & Hnf & _).
      elems; try first [ by apply Hnf in Hin | by eapply IH ].
      rewrite ?Hf in Hin. injection Hin as _ _ ->.
      destruct (syncTxs_covers _ _ _ _ _ _ _ _ _ tx E1 Htx eq_refl) as [ts Hts].
      exists ts.
      by apply (run_preserve _ _ _ _ _ (syncAccounts_run _ _ _ _ _ _ _ E)).
    + destruct (syncAccounts env config rest st _) as [[[r0 st0] w0] t0] eqn:E.
      intros [= -> <- <- <-] Hin Htx. elems.
      * rewrite ?Hf in Hin. discriminate.
      * by eapply IH.
Qed.

(** A post is made only for a transaction of a fetched list. *)
Lemma syncAccounts_posts_fetched accts (st : Ledger) w err st' w' t tx body r :
  syncAccounts env config accts st w = (err, st', w', t) ->
  Post tx body r ∈ t ->
  exists a s txs, Fetch a s (Ok txs) ∈ t /\ tx ∈ txs.
Proof.
  revert st w err st' w' t.
  induction accts as [|a0 rest IH]; intros st w err st' w' t.
  - intros [= <- <- <- <-] Hin. elems.
  - assert (Hlater : forall t0 t1 : list Event,
      (forall x, x ∈ t0 -> x ∈ t1) ->
      (exists a s txs, Fetch a s (Ok txs) ∈ t0 /\ tx ∈ txs) ->
      exists a s txs, Fetch a s (Ok txs) ∈ t1 /\ tx ∈ txs).
    { intros t0 t1 Hsub (a & s & txs & Hin & Htx). exists a, s, txs. auto. }
    step_acct a0 rest st w.
    + destruct (syncAccounts env config rest st _) as [[[r0 st0] w0] t0] eqn:E.
      intros [= <- <- <- <-] Hin. elems.
      apply (Hlater t0); [intros; in_trace | by eapply IH].
    + destruct (syncTxs env config (tx0 :: txs) st 0 _)
        as [[[[[e|] st1] p1] w1] t1] eqn:E1.
      * intros [= <- <- <- <-] Hin. elems.
        exists a0, (fetchStart config (nowAt env w)), (tx0 :: txs).
        split; [rewrite ?Hf; in_trace | by eapply syncTxs_posts_listed].
      * destruct (syncAccounts env config rest st1 w1)
          as [[[r0 st0] w0] t0] eqn:E.
        intros [= <- <- <- <-] Hin. elems;
          first [ apply (Hlater t0); [intros; in_trace | by eapply IH]
                | exists a0, (fetchStart config (nowAt env w)), (tx0 :: txs);
                  split; [rewrite ?Hf; in_trace | by eapply syncTxs_posts_listed] ].
    + destruct (syncAccounts env config rest st _) as [[[r0 st0] w0] t0] eqn:E.
      intros [= <- <- <- <-] Hin. elems.
      apply (Hlater t0); [intros; in_trace | by eapply IH].
Qed.

(** Time does not run backwards through the loops when no interaction
    takes negative time. *)
Lemma advance_clock w :
  (forall k, 0 <= latency env k) -> clock w <= clock (advance env w).
Proof. intros H. simpl. specialize (H (tick w)). lia. Qed.

Lemma syncTxs_clock txs (st : Ledger) p w err st' p' w' t :
  (forall k, 0 <= latency env k) ->
  syncTxs env config txs st p w = (err, st', p', w', t) ->
  clock w <= clock w'.
Proof.
  intros Hlat. revert st p w err st' p' w' t.
  induction txs as [|tx rest IH]; intros st p w err st' p' w' t.
  - intros [= <- <- <- <- <-]. lia.
  - step_tx tx st w.
    + destruct (syncTxs env config rest st p w) as [[[[err0 st0] p0] w0] t0] eqn:E.
      intros [= <- <- <- <- <-]. by eapply IH.
    + intros [= <- <- <- <- <-]. lia.
Qed.

Lemma syncAccounts_clock accts (st : Ledger) w err st' w' t :
  (forall k, 0 <= latency env k) ->
  syncAccounts env config accts st w = (err, st', w', t) ->
  clock w <= clock w'.
Proof.
  intros Hlat. revert st w err st' w' t.
  induction accts as [|a rest IH]; intros st w err st' w' t.
  - intros [= <- <- <- <-]. lia.
  - pose proof (advance_clock w Hlat).
    pose proof (advance_clock (advance env w) Hlat).
    step_acct a rest st w.
    + destruct (syncAccounts env config rest st _) as [[[r0 st0] w0] t0] eqn:E.
      intros [= <- <- <- <-]. apply IH in E. lia.
    + destruct (syncTxs env config (tx :: txs) st 0 _)
        as [[[[[e|] st1] p1] w1] t1] eqn:E1;
        apply syncTxs_clock in E1; try done.
      * intros [= <- <- <- <-]. lia.
      * destruct (syncAccounts env config rest st1 w1)
          as [[[r0 st0] w0] t0] eqn:E.
        intros [= <- <- <- <-]. apply IH in E. lia.
    + destruct (syncAccounts env config rest st _) as [[[r0 st0] w0] t0] eqn:E.
      intros [= <- <- <- <-]. apply IH in E. lia.
Qed.

(** The loop over the transactions of an account changes neither the
    map nor the counter nor the world: a known transaction is skipped,
    and the first one that is not known ends the loop with the error of
    [getRequest]. *)
Lemma syncTxs_frame txs (st : Ledger) p w err st' p' w' t :
  syncTxs env config txs st p w = (err, st', p', w', t) ->
  st' = st /\ p' = p /\ w' = w /\
  (forall tx body r,
     Post tx body r ∈ t -> r = Some (requestError config tx)) /\
  (forall e, err = Some e -> exists tx, tx ∈ txs /\ e = requestError config tx).
Proof.
  revert st p w err st' p' w' t.
  induction txs as [|tx0 rest IH]; intros st p w err st' p' w' t.
  - intros [= <- <- <- <- <-]. repeat split; try done.
    intros tx body r Hin. elems.
  - step_tx tx0 st w.
    + destruct (syncTxs env config rest st p w) as [[[[err0 st0] p0] w0] t0] eqn:E.
      intros [= <- <- <- <- <-]. apply IH in E as (-> & -> & -> & Hp & He).
      repeat split; try done.
      * intros tx body r Hin. elems. by eapply Hp.
      * intros e Herr. destruct (He e Herr) as (tx & Hin & ->).
        exists tx. split; [by apply list_elem_of_further | done].
    + intros [= <- <- <- <- <-]. repeat split; try done.
      * intros tx body r Hin. elems. by injection Hin as -> _ ->.
      * intros e [= <-]. exists tx0. split; [apply list_elem_of_here | done].
Qed.

Lemma syncAccounts_frame accts (st : Ledger) w err st' w' t :
  syncAccounts env config accts st w = (err, st', w', t) ->
  st' = st /\
  (forall tx body r,
     Post tx body r ∈ t -> r = Some (requestError config tx)).
Proof.
  revert st w err st' w' t.
  induction accts as [|a rest IH]; intros st w err st' w' t.
  - intros [= <- <- <- <-]. split; [done|]. intros tx body r Hin. elems.
  - step_acct a rest st w.
    + destruct (syncAccounts env config rest st _) as [[[r0 st0] w0] t0] eqn:E.
      intros [= <- <- <- <-]. apply IH in E as [-> Hp]. split; [done|].
      intros tx body r Hin. elems. by eapply Hp.
    + destruct (syncTxs env config (tx :: txs) st 0 _)
        as [[[[[e|] st1] p1] w1] t1] eqn:E1;
        apply syncTxs_frame in E1 as (-> & -> & -> & Hp1 & _).
      * intros [= <- <- <- <-]. split; [done|].
        intros tx' body r Hin. elems. by eapply Hp1.
      * destruct (syncAccounts env config rest st _)
          as [[[r0 st0] w0] t0] eqn:E.
        intros [= <- <- <- <-]. apply IH in E as [-> Hp]. split; [done|].
        intros tx' body r Hin. elems; first [by eapply Hp1 | by eapply Hp].
    + destruct (syncAccounts env config rest st _) as [[[r0 st0] w0] t0] eqn:E.
      intros [= <- <- <- <-]. apply IH in E as [-> Hp]. split; [done|].
      intros tx body r Hin. elems. by eapply Hp.
Qed.


(** The loops write no state file and do not sleep. *)
Lemma syncTxs_quiet txs (st : Ledger) p w err st' p' w' t x :
  syncTxs env config txs st p w = (err, st', p', w', t) ->
  x ∈ t ->
  (forall l o, x <> Save l o) /\ (forall d, x <> Sleep d).
Proof.
  revert st p w err st' p' w' t.
  induction txs as [|tx0 rest IH]; intros st p w err st' p' w' t.
  - intros [= <- <- <- <- <-] Hin. elems.
  - step_tx tx0 st w.
    + destruct (syncTxs env config rest st p w) as [[[[err0 st0] p0] w0] t0] eqn:E.
      intros [= <- <- <- <- <-] Hin. elems; [by subst|by eapply IH].
    + intros [= <- <- <- <- <-] Hin. elems; by subst.
Qed.

Lemma syncAccounts_quiet accts (st : Ledger) w err st' w' t x :
  syncAccounts env config accts st w = (err, st', w', t) ->
  x ∈ t ->
  (forall l o, x <> Save l o) /\ (forall d, x <> Sleep d).
Proof.
  revert st w err st' w' t.
  induction accts as [|a rest IH]; intros st w err st' w' t.
  - intros [= <- <- <- <-] Hin. elems.
  - step_acct a rest st w.
    + destruct (syncAccounts env config rest st _) as [[[r0 st0] w0] t0] eqn:E.
      intros [= <- <- <- <-] Hin.
      elems; subst; first [done | by eapply IH].
    + destruct (syncTxs env config (tx :: txs) st 0 _)
        as [[[[[e|] st1] p1] w1] t1] eqn:E1.
      * intros [= <- <- <- <-] Hin.
        elems; subst; first [done | by eapply syncTxs_quiet].
      * destruct (syncAccounts env config rest st1 w1)
          as [[[r0 st0] w0] t0] eqn:E.
        intros [= <- <- <- <-] Hin.
        elems; subst; first [done | by eapply syncTxs_quiet | by eapply IH].
    + destruct (syncAccounts env config rest st _) as [[[r0 st0] w0] t0] eqn:E.
      intros [= <- <- <- <-] Hin.
      elems; subst; first [done | by eapply IH].
Qed.

End Loops.

(** ** One cycle *)

Section Cycle.

Context (env : Env) (config : Config).

Lemma syncTransactions_unfold (st : Ledger) w :
  syncTransactions env config st w =
  let '(err, st', w', t) :=
    syncAccounts env config (mercuryAccounts config) (prunedAt env w st)
      (advance env w) in
  match err with
  | Some e => (Some e, st', w', t)
  | None => (None, st', w', t ++ [Log LevelDebug "Sync completed" []])
  end.
Proof.
  unfold syncTransactions, prunedAt. unfold bind at 1. rewrite timeNow_run.
  unfold bind at 1.
  destruct (syncAccounts env config _ _ _) as [[[[e|] st'] w'] t];
    unfold ret, bind, slog, emit; simpl; by rewrite ?app_nil_r.
Qed.

(** The cycle as a whole is a stretch of the posting loops that starts
    from the pruned map. *)
Lemma syncTransactions_run (st : Ledger) w err st' w' t :
  syncTransactions env config st w = (err, st', w', t) ->
  PostingRun config (prunedAt env w st) err st' t /\ disk w' = disk w.
Proof.
  rewrite syncTransactions_unfold.
  destruct (syncAccounts env config _ _ _) as [[[[e|] st0] w0] t0] eqn:E;
    intros [= <- <- <- <-].
  - split; [by eapply syncAccounts_run | by apply syncAccounts_disk in E].
  - split; [|by apply syncAccounts_disk in E].
    rewrite <- (app_nil_r (t0 ++ _)), <- app_assoc.
    eapply run_seq; [by eapply syncAccounts_run | by apply run_silent].
Qed.

(** The trace of the cycle is the trace of the loop over the accounts,
    up to the closing log line. *)
Lemma syncTransactions_trace (st : Ledger) w err st' w' t :
  syncTransactions env config st w = (err, st', w', t) ->
  exists t0,
    syncAccounts env config (mercuryAccounts config) (prunedAt env w st)
      (advance env w) = (err, st', w', t0) /\
    (forall x, x ∈ t0 -> x ∈ t) /\
    (forall x, x ∈ t -> x ∈ t0 \/ x = Log LevelDebug "Sync completed" []).
Proof.
  rewrite syncTransactions_unfold.
  destruct (syncAccounts env config _ _ _) as [[[[e|] st0] w0] t0] eqn:E;
    intros [= <- <- <- <-]; exists t0; split; try done.
  - split; [done | by left].
  - split; [intros; apply elem_of_app; by left|].
    intros x [?|?%list_elem_of_singleton]%elem_of_app; [by left | by right].
Qed.

End Cycle.

Lemma sync_results env config (st : Ledger) w :
  syncTransactions env config st w =
  (syncErr env config st w, syncLedger env config st w,
   syncWorld env config st w, syncTrace env config st w).
Proof.
  unfold syncErr, syncLedger, syncWorld, syncTrace.
  by destruct (syncTransactions env config st w) as [[[err st'] w'] t].
Qed.

Lemma sync_run env config (st : Ledger) w :
  PostingRun config (prunedAt env w st) (syncErr env config st w)
    (syncLedger env config st w) (syncTrace env config st w).
Proof. eapply syncTransactions_run, sync_results. Qed.

(** ** Delivery *)

(** C10.  Within one cycle at most one post is attempted for any
    transaction id ([createInvoiceNinjaTransaction] is called at most
    once for it), whatever the fetched lists contain and however often
    an id occurs in them: a post that succeeds puts the id into the map
    before the next transaction is looked at, and a failed post ends the
    cycle. *)
Theorem at_most_one_post_per_id env config (st : Ledger) w id :
  (length (postsFor id (syncTrace env config st w)) <= 1)%nat /\
  (forall tx body,
     Post tx body None ∈ syncTrace env config st w ->
     is_Some (syncLedger env config st w !! ID tx)) /\
  (forall tx body e,
     Post tx body (Some e) ∈ syncTrace env config st w ->
     syncErr env config st w = Some e /\
     last (syncTrace env config st w) = Some (Post tx body (Some e))).
Proof.
  pose proof (sync_run env config st w) as R.
  split; [apply postsFor_NoDup, R|]. split; [apply R|].
  intros tx body e Hin.
  destruct (syncErr env config st w) as [e'|] eqn:Herr.
  - destruct (run_aborted _ _ _ _ _ R e' eq_refl)
      as (t0 & tx' & body' & Ht & Hok).
    rewrite Ht in Hin |- *. rewrite last_snoc.
    apply elem_of_app in Hin as [Hin|Hin].
    + by apply Hok in Hin.
    + apply list_elem_of_singleton in Hin. by injection Hin as -> -> ->.
  - by apply (run_completed _ _ _ _ _ R eq_refl) in Hin.
Qed.

Lemma sync_accounts env config (st : Ledger) w :
  exists t0,
    syncAccounts env config (mercuryAccounts config) (prunedAt env w st)
      (advance env w)
    = (syncErr env config st w, syncLedger env config st w,
       syncWorld env config st w, t0) /\
    (forall x, x ∈ t0 -> x ∈ syncTrace env config st w) /\
    (forall x, x ∈ syncTrace env config st w ->
       x ∈ t0 \/ x = Log LevelDebug "Sync completed" []).
Proof. eapply syncTransactions_trace, sync_results. Qed.

(** A post of the cycle is for a transaction the source returned in this
    cycle. *)
Lemma sync_post_fetched env config (st : Ledger) w tx body r :
  Post tx body r ∈ syncTrace env config st w ->
  exists n a s txs, fetchResp env n a s = Ok txs /\ tx ∈ txs.
Proof.
  destruct (sync_accounts env config st w) as (t0 & E & Hsub & Hsup).
  intros [Hin|Heq]%Hsup; [|discriminate].
  destruct (syncAccounts_posts_fetched _ _ _ _ _ _ _ _ _ _ _ _ E Hin)
    as (a & s & txs & Hf & Htx).
  destruct (syncAccounts_fetches _ _ _ _ _ _ _ _ _ _ _ _ E Hf)
    as (_ & [n Hn] & _).
  by exists n, a, s, txs.
Qed.

(** What a cycle leaves in memory is the map it started from, pruned:
    no call of [createInvoiceNinjaTransaction] returns nil, so the
    statement that records an id is never reached. *)
Lemma sync_frame env config (st : Ledger) w :
  syncLedger env config st w = prunedAt env w st /\
  (forall tx body r,
     Post tx body r ∈ syncTrace env config st w ->
     r = Some (requestError config tx)).
Proof.
  destruct (sync_accounts env config st w) as (t0 & E & Hsub & Hsup).
  apply syncAccounts_frame in E as [-> Hp]. split; [done|].
  intros tx body r [Hin|Heq]%Hsup; [by eapply Hp | discriminate].
Qed.

Lemma append_assoc (s1 s2 s3 : string) :
  (s1 +:+ s2) +:+ s3 = s1 +:+ s2 +:+ s3.
Proof.
  induction s1 as [|c s1 IH]; [reflexivity|].
  change (String c ((s1 +:+ s2) +:+ s3) = String c (s1 +:+ s2 +:+ s3)).
  by rewrite IH.
Qed.

(** The text of the error: that of [rh.NewRequest] for a record that
    [json.Marshal] accepts, that of [json.Marshal] otherwise. *)
Lemma requestError_text config tx :
  match jsonMarshalError (bankTX config tx) with
  | None =>
      requestError config tx
      = "error creating request: POST " +:+ InvoiceNinjaURL config
        +:+ "/api/v1/bank_transactions: "
        +:+ "cannot handle type main.InvoiceNinjaBankTX"
  | Some detail =>
      requestError config tx
      = "error marshaling body: POST " +:+ InvoiceNinjaURL config
        +:+ "/api/v1/bank_transactions:  " +:+ detail
  end.
Proof.
  unfold requestError, getInvoiceNinjaRequest, getRequest.
  destruct (jsonMarshalError (bankTX config tx)) as [detail|];
    cbn [rhNewRequest]; rewrite !append_assoc; reflexivity.
Qed.

(** C2.  The premise of the claim is never met.  Every call of
    [createInvoiceNinjaTransaction] returns an error, and returns it
    before a request exists: [getRequest] marshals the record into a
    variable of its inner block and hands the record itself to
    [rh.NewRequest], which refuses it.  So in every cycle each call made
    for a transaction fails with that error, the error ends the cycle,
    the transaction's id is not in the map afterwards, and the map after
    the cycle is the map before it, pruned: no id is ever recorded. *)
Theorem post_call_never_succeeds env config (st : Ledger) w :
  (forall tx w0,
     createInvoiceNinjaTransaction env config tx w0 =
     (Some (requestError config tx), w0,
      [Log LevelDebug "Creating bank transaction in InvoiceNinja"
         [("description", BankDescription tx)];
       Post tx (bankTX config tx) (Some (requestError config tx))])) /\
  (forall tx body r,
     Post tx body r ∈ syncTrace env config st w ->
     r = Some (requestError config tx) /\
     syncErr env config st w = Some (requestError config tx) /\
     syncLedger env config st w !! ID tx = None) /\
  syncLedger env config st w = prunedAt env w st.
Proof.
  pose proof (sync_run env config st w) as R.
  destruct (sync_frame env config st w) as [Hst Hp].
  split; [intros tx w0; apply createInvoiceNinjaTransaction_run|].
  split; [|exact Hst].
  intros tx body r Hin. pose proof (Hp tx body r Hin) as ->.
  split; [done|]. split.
  - destruct (syncErr env config st w) as [e|] eqn:Herr.
    + destruct (run_aborted _ _ _ _ _ R e eq_refl)
        as (t0 & tx' & body' & Ht & Hok).
      rewrite Ht in Hin. apply elem_of_app in Hin as [Hin|Hin].
      * by apply Hok in Hin.
      * apply list_elem_of_singleton in Hin. by injection Hin as _ _ ->.
    + by apply (run_completed _ _ _ _ _ R eq_refl) in Hin.
  - rewrite Hst. apply (run_fresh _ _ _ _ _ R), in_postedIDs. eauto.
Qed.

(** The run of the claim: one transaction that is not in the map, and a
    server that would accept its record.  The call fails all the same,
    nothing is sent, and the id is not recorded. *)
Lemma post_call_never_succeeds_witness :
  posts (syncTrace Scenario.envOk (Scenario.config [Scenario.acctA] 7 1) ∅
           Scenario.w0)
  = [Post Scenario.tx1
       (bankTX (Scenario.config [Scenario.acctA] 7 1) Scenario.tx1)
       (Some ("error creating request: "
              +:+ "POST https://ninja.example/api/v1/bank_transactions: "
              +:+ "cannot handle type main.InvoiceNinjaBankTX"))] /\
  syncErr Scenario.envOk (Scenario.config [Scenario.acctA] 7 1) ∅ Scenario.w0
  = Some (requestError (Scenario.config [Scenario.acctA] 7 1) Scenario.tx1) /\
  syncLedger Scenario.envOk (Scenario.config [Scenario.acctA] 7 1) ∅
    Scenario.w0 !! "tx-1" = None.
Proof.
  split; [vm_compute; reflexivity|].
  destruct (post_call_never_succeeds Scenario.envOk
              (Scenario.config [Scenario.acctA] 7 1) ∅ Scenario.w0)
    as (_ & H & _).
  destruct (H Scenario.tx1
              (bankTX (Scenario.config [Scenario.acctA] 7 1) Scenario.tx1)
              (Some (requestError (Scenario.config [Scenario.acctA] 7 1)
                       Scenario.tx1)))
    as (_ & Herr & Hled).
  - vm_compute. in_trace.
  - split; [exact Herr | exact Hled].
Defined.

(** ** Idempotence *)

(** C3, as the code has it.  When every transaction the source returns
    has an entry in the map that the pruning at the start of the cycle
    keeps (recorded no earlier than seven days before the first clock
    reading of the cycle), the cycle attempts no post, returns no
    error, and leaves in memory exactly the pruned map: every such
    transaction is skipped. *)
Theorem idempotence env config (st : Ledger) w :
  (forall n a s txs tx,
     fetchResp env n a s = Ok txs -> tx ∈ txs ->
     exists ts, st !! ID tx = Some ts /\
                Before ts (cutoffOf (nowAt env w)) = false) ->
  posts (syncTrace env config st w) = [] /\
  syncErr env config st w = None /\
  syncLedger env config st w = prunedAt env w st.
Proof.
  intros Hknown. pose proof (sync_run env config st w) as R.
  assert (Hnone : forall tx body r, Post tx body r ∉ syncTrace env config st w).
  { intros tx body r Hin.
    destruct (sync_post_fetched _ _ _ _ _ _ _ Hin) as (n & a & s & txs & Hf & Htx).
    destruct (Hknown n a s txs tx Hf Htx) as (ts & Hts & Hkeep).
    assert (Hfresh : prunedAt env w st !! ID tx = None).
    { apply (run_fresh _ _ _ _ _ R), in_postedIDs. eauto. }
    assert (prunedAt env w st !! ID tx = Some ts)
      by (by apply pruneLoop_Some).
    congruence. }
  split; [|split].
  - apply posts_nil_postedIDs.
    destruct (postedIDs (syncTrace env config st w)) as [|id l] eqn:E; [done|].
    assert (Hid : id ∈ postedIDs (syncTrace env config st w))
      by (rewrite E; apply list_elem_of_here).
    apply in_postedIDs in Hid as (tx & body & r & Hin & _).
    by apply Hnone in Hin.
  - destruct (syncErr env config st w) as [e|] eqn:Herr; [|done].
    destruct (run_aborted _ _ _ _ _ R e eq_refl) as (t0 & tx & body & Ht & _).
    exfalso. apply (Hnone tx body (Some e)). rewrite Ht.
    apply elem_of_app; right. apply list_elem_of_here.
  - apply map_eq. intros id.
    destruct (prunedAt env w st !! id) as [ts|] eqn:E.
    + by apply (run_preserve _ _ _ _ _ R).
    + destruct (syncLedger env config st w !! id) as [ts|] eqn:E'; [|done].
      destruct (run_origin _ _ _ _ _ R id) as [[ts' Hs]|(tx & body & _ & Hin)].
      * by rewrite E'.
      * congruence.
      * by apply Hnone in Hin.
Qed.

Lemma idempotence_witness :
  posts (syncTrace Scenario.envOld (Scenario.config [Scenario.acctA] 30 1)
           {[ "tx-0" := mkTime (Scenario.day 99) 0 ]} Scenario.w0) = [] /\
  syncErr Scenario.envOld (Scenario.config [Scenario.acctA] 30 1)
    {[ "tx-0" := mkTime (Scenario.day 99) 0 ]} Scenario.w0 = None /\
  syncLedger Scenario.envOld (Scenario.config [Scenario.acctA] 30 1)
    {[ "tx-0" := mkTime (Scenario.day 99) 0 ]} Scenario.w0
  = prunedAt Scenario.envOld Scenario.w0
      {[ "tx-0" := mkTime (Scenario.day 99) 0 ]}.
Proof.
  apply (idempotence Scenario.envOld (Scenario.config [Scenario.acctA] 30 1)
           {[ "tx-0" := mkTime (Scenario.day 99) 0 ]} Scenario.w0).
  intros n a s txs tx [= <-] Hin.
  apply list_elem_of_singleton in Hin as ->.
  exists (mkTime (Scenario.day 99) 0). split; reflexivity.
Defined.

(** C3, as the claim has it, fails: a map that contains the id of every
    fetched transaction does not keep the cycle from attempting a post
    when the entry is older than seven days, because the cycle prunes
    first. *)
Lemma idempotence_counterexample :
  (forall n a s txs tx,
     fetchResp Scenario.envOld n a s = Ok txs -> tx ∈ txs ->
     is_Some (Scenario.staleLedger !! ID tx)) /\
  posts (syncTrace Scenario.envOld (Scenario.config [Scenario.acctA] 30 1)
           Scenario.staleLedger Scenario.w0)
  = [Post Scenario.tx0
       (bankTX (Scenario.config [Scenario.acctA] 30 1) Scenario.tx0)
       (Some ("error creating request: "
              +:+ "POST https://ninja.example/api/v1/bank_transactions: "
              +:+ "cannot handle type main.InvoiceNinjaBankTX"))].
Proof.
  split.
  - intros n a s txs tx [= <-] Hin.
    apply list_elem_of_singleton in Hin as ->. by eexists.
  - vm_compute. reflexivity.
Qed.

(** ** Isolation of accounts *)





(** ** Pruning *)

(** C4.  Pruning at time [now] removes exactly the entries recorded
    strictly earlier than [now] minus the retention window of seven days:
    such an entry is absent afterwards, any other entry is kept with its
    time, nothing is added, and the loop that deletes while ranging over
    the map is the filter that keeps the entries inside the window. *)
Theorem prune_removes_exactly_the_expired (now : Time) (st : Ledger) :
  let retention := retentionDays * nsPerDay in
  (forall id ts, st !! id = Some ts -> wall ts < wall now - retention ->
     pruneLoop (cutoffOf now) st !! id = None) /\
  (forall id ts, st !! id = Some ts -> wall now - retention <= wall ts ->
     pruneLoop (cutoffOf now) st !! id = Some ts) /\
  (forall id, st !! id = None -> pruneLoop (cutoffOf now) st !! id = None) /\
  pruneLoop (cutoffOf now) st
  = filter (fun kv => wall now - retention <= wall (snd kv)) st.
Proof.
  cbv zeta.
  assert (Hbefore : forall ts,
    Before ts (cutoffOf now) = true <->
    wall ts < wall now - retentionDays * nsPerDay).
  { intros ts. unfold Before, cutoffOf, AddDays. simpl.
    rewrite Z.ltb_lt. lia. }
  split; [|split; [|split]].
  - intros id ts Hts Hold. rewrite pruneLoop_lookup, Hts.
    apply Hbefore in Hold. by rewrite Hold.
  - intros id ts Hts Hnew. rewrite pruneLoop_lookup, Hts.
    destruct (Before ts (cutoffOf now)) eqn:E; [|done].
    apply Hbefore in E. lia.
  - intros id. apply pruneLoop_None.
  - apply map_eq. intros id. apply option_eq. intros ts.
    rewrite pruneLoop_Some, map_lookup_filter_Some. simpl.
    split; intros [Hts H]; (split; [done|]).
    + destruct (Z.le_gt_cases (wall now - retentionDays * nsPerDay) (wall ts))
        as [?|Hlt]; [done|].
      apply Hbefore in Hlt. congruence.
    + destruct (Before ts (cutoffOf now)) eqn:E; [|done].
      apply Hbefore in E. lia.
Qed.

(** ** The posted record *)

Lemma civil_of_days_range z :
  let '(y, m, d) := civil_of_days z in 1 <= m <= 12 /\ 1 <= d <= 31.
Proof.
  unfold civil_of_days. cbv zeta.
  destruct (_ <? 10) eqn:E;
    [apply Z.ltb_lt in E | apply Z.ltb_ge in E];
    Z.div_mod_to_equations; lia.
Qed.

(** [civil_of_days] yields the date of the day number it is given. *)
Lemma days_of_civil_of_days z :
  let '(y, m, d) := civil_of_days z in days_of_civil y m d = z.
Proof.
  unfold civil_of_days, days_of_civil. cbv zeta.
  destruct (_ <? 10) eqn:E;
    [apply Z.ltb_lt in E | apply Z.ltb_ge in E];
    (destruct (_ <=? 2) eqn:E2;
       [apply Z.leb_le in E2 | apply Z.leb_gt in E2]);
    Z.div_mod_to_equations; lia.
Qed.

(** The amount sent carries no sign. *)
Lemma SFabs_not_negative (x : spec_float) :
  SFltb (SFabs x) (S754_zero false) = false /\
  SFabs (SFabs x) = SFabs x.
Proof. by destruct x as [[|]|[|]| |[|] m e]. Qed.

Example FormatDate_epoch : FormatDate (mkTime 0 0) = "1970-01-01".
Proof. reflexivity. Qed.

Example FormatDate_leap :
  FormatDate (mkTime (1709251199 * nsPerSecond + 5) 0) = "2024-02-29".
Proof. vm_compute. reflexivity. Qed.

Example FormatDate_zone :
  FormatDate (mkTime (1709251199 * nsPerSecond) 3600) = "2024-03-01".
Proof. vm_compute. reflexivity. Qed.

Example FormatDate_1999 :
  FormatDate (mkTime (946684799 * nsPerSecond) 0) = "1999-12-31".
Proof. vm_compute. reflexivity. Qed.

Example FormatDate_before_epoch : FormatDate (mkTime (-1) 0) = "1969-12-31".
Proof. vm_compute. reflexivity. Qed.

(** The two amounts of the specification: +125.50 is a credit of
    125.50, -40.00 a debit of 40.00; zero is a debit. *)
Example bankTX_examples :
  let config := Scenario.config [Scenario.acctA] 7 1 in
  bankTX config Scenario.tx1
  = mkBankTX Scenario.plus125_50 "1970-04-10" "Invoice 17" "bank-1" CREDIT /\
  bankTX config Scenario.tx2
  = mkBankTX (SFopp Scenario.minus40) "1970-04-10" "Card fee" "bank-1" DEBIT /\
  btBaseType (bankTX config (mkTx "z" (S754_zero false) "" (mkTime 0 0)))
  = DEBIT /\
  btBaseType (bankTX config (mkTx "z" (S754_zero true) "" (mkTime 0 0)))
  = DEBIT.
Proof. vm_compute. repeat split. Qed.

(** C5.  Every post attempted in a cycle is given the record built
    from its transaction: the category is credit exactly when the amount is
    greater than zero and debit otherwise (zero included), the amount is
    the absolute value of the transaction's amount and is never below
    zero, the date is the civil date (year, month, day) of the posted
    timestamp in its own location, with no time of day, and the routing
    identifier of the configuration is attached. *)
Theorem sign_mapping env config (st : Ledger) w tx body r :
  Post tx body r ∈ syncTrace env config st w ->
  (SFltb (S754_zero false) (Amount tx) = true -> btBaseType body = CREDIT) /\
  (SFltb (S754_zero false) (Amount tx) = false -> btBaseType body = DEBIT) /\
  btAmount body = SFabs (Amount tx) /\
  SFltb (btAmount body) (S754_zero false) = false /\
  (let '(y, m, d) := civil_of_days (localDay (PostedAt tx)) in
   btDate body = appendInt y 4 +:+ "-" +:+ digits 2 m +:+ "-" +:+ digits 2 d /\
   days_of_civil y m d = localDay (PostedAt tx) /\
   1 <= m <= 12 /\ 1 <= d <= 31) /\
  btBankIntegrationID body = bankIntegrationID config /\
  btDescription body = BankDescription tx.
Proof.
  intros Hin.
  rewrite (run_body _ _ _ _ _ (sync_run env config st w) tx body r Hin).
  unfold bankTX.
  cbn [btBaseType btAmount btDate btBankIntegrationID btDescription].
  split; [by intros -> |]. split; [by intros -> |]. split; [done|].
  split; [apply SFabs_not_negative|]. split; [|done].
  unfold FormatDate.
  pose proof (days_of_civil_of_days (localDay (PostedAt tx))) as Hrt.
  pose proof (civil_of_days_range (localDay (PostedAt tx))) as Hrg.
  destruct (civil_of_days (localDay (PostedAt tx))) as [[y m] d].
  split; [reflexivity|]. split; [exact Hrt | exact Hrg].
Qed.

Lemma sign_mapping_witness :
  btBaseType (bankTX (Scenario.config [Scenario.acctB] 7 1) Scenario.tx2)
  = DEBIT /\
  btAmount (bankTX (Scenario.config [Scenario.acctB] 7 1) Scenario.tx2)
  = SFabs Scenario.minus40.
Proof.
  destruct (sign_mapping Scenario.envOk
              (Scenario.config [Scenario.acctB] 7 1) ∅
              Scenario.w0 Scenario.tx2
              (bankTX (Scenario.config [Scenario.acctB] 7 1) Scenario.tx2)
              (Some (requestError (Scenario.config [Scenario.acctB] 7 1)
                       Scenario.tx2)))
    as (_ & Hdebit & Habs & _).
  - vm_compute. in_trace.
  - split; [apply Hdebit; reflexivity | exact Habs].
Defined.

(** ** Retention and lookback *)

Lemma wrap_in_range z : Int64.in_range z -> Int64.wrap z = z.
Proof.
  unfold Int64.in_range, Int64.wrap, Int64.min_int, Int64.max_int,
    Int64.modulus.
  change (2 ^ 63) with 9223372036854775808.
  change (2 ^ 64) with 18446744073709551616.
  intros H. rewrite Z.mod_small; lia.
Qed.

Lemma int_in_range (i : Int64.int) : Int64.in_range (Int64.intval i).
Proof.
  destruct i as [z Hz]. simpl. unfold Int64.in_range.
  apply andb_prop in Hz as [H1 H2]. apply Z.leb_le in H1, H2. lia.
Qed.

(** The state file is [sync_state.json] in the directory given with
    [-d], whatever way the directory is written. *)
Example filepathJoin_examples :
  filepathJoin "/data" "sync_state.json" = "/data/sync_state.json" /\
  filepathJoin "/data/" "sync_state.json" = "/data/sync_state.json" /\
  filepathJoin "" "sync_state.json" = "sync_state.json" /\
  filepathJoin "." "sync_state.json" = "sync_state.json" /\
  filepathJoin "//var//lib/./sync/../state" "sync_state.json"
  = "/var/lib/state/sync_state.json" /\
  filepathJoin "../x/.." "sync_state.json" = "../sync_state.json" /\
  filepathJoin "/.." "sync_state.json" = "/sync_state.json".
Proof. vm_compute. repeat split. Qed.

(** The configuration of the README: only the three required keys. *)
Example loadConfig_defaults :
  loadConfig (fun _ => None)
    (Object (mkConfigFile (Some "key") (Some "token")
               (Some "https://ninja.example") None None None None))
    "/data" ""
  = Ok {| MercuryAPIKey := "key"; InvoiceNinjaToken := "token";
          InvoiceNinjaURL := "https://ninja.example";
          BankProvider := "Mercury"; SyncIntervalHours := 1;
          SyncStartDaysAgo := 7; LogLevel := "info";
          stateFilePath := "/data/sync_state.json";
          bankIntegrationID := ""; mercuryAccounts := [] |}.
Proof. reflexivity. Qed.

(** [loadConfig] takes the lookback from the file as it is: any value of
    an [int], or seven when the file has none. *)
Lemma loadConfig_lookback parseRequestURI f dataDir url config :
  loadConfig parseRequestURI (Object f) dataDir url = Ok config ->
  lookbackDays config = default 7 (Int64.intval <$> fSyncStartDaysAgo f) /\
  Int64.in_range (lookbackDays config).
Proof.
  unfold loadConfig.
  destruct (String.eqb _ ""); [discriminate|].
  destruct (String.eqb _ ""); [discriminate|].
  assert (Hr : Int64.in_range
                 (default 7 (Int64.intval <$> fSyncStartDaysAgo f))).
  { destruct (fSyncStartDaysAgo f) as [i|]; simpl; [apply int_in_range|].
    unfold Int64.in_range, Int64.min_int, Int64.max_int. lia. }
  destruct (String.eqb _ ""); (destruct (parseRequestURI _); [discriminate|]);
    by intros [= <-].
Qed.

(** As long as the seconds stay within 64 bits, [AddDate] moves the
    instant by whole days, as [AddDays] does for the cutoff. *)
Lemma AddDate_AddDays (t : Time) (days : Z) :
  Int64.in_range (wall t / nsPerSecond + unixToInternal + days * secondsPerDay) ->
  AddDate t days = AddDays t days.
Proof.
  intros Hr. unfold AddDate, AddDays. cbv zeta. rewrite (wrap_in_range _ Hr).
  f_equal. unfold nsPerDay, secondsPerDay, nsPerSecond, unixToInternal.
  pose proof (Z.div_mod (wall t) 1000000000). lia.
Qed.

(** The cutoff of the pruning loop is that of [AddDate(0, 0, -7)] for
    every clock reading from which seven days can be taken within 64-bit
    seconds, that is from the eighth day of the year 1 on. *)
Lemma cutoffOf_AddDate (now : Time) :
  Int64.in_range (wall now / nsPerSecond + unixToInternal
                  - retentionDays * secondsPerDay) ->
  AddDate now (- retentionDays) = cutoffOf now.
Proof.
  intros Hr. unfold cutoffOf. apply AddDate_AddDays.
  replace (wall now / nsPerSecond + unixToInternal
           + - retentionDays * secondsPerDay)
    with (wall now / nsPerSecond + unixToInternal
          - retentionDays * secondsPerDay) by lia.
  exact Hr.
Qed.

(** Outside that range the day count wraps: a lookback of 30 - 2^57
    days, which is a value of an [int], fetches from 30 days back. *)
Example fetchStart_wraps :
  fetchStart (Scenario.config [Scenario.acctA] (30 - 2 ^ 57) 1)
    (mkTime (Scenario.day 100) 0)
  = fetchStart (Scenario.config [Scenario.acctA] 30 1)
      (mkTime (Scenario.day 100) 0) /\
  fetchStart (Scenario.config [Scenario.acctA] 30 1)
    (mkTime (Scenario.day 100 + 999999999) 0)
  = mkTime (Scenario.day 70) 0.
Proof. vm_compute. split; reflexivity. Qed.

(** C9, as the code has it.  The retention window is the constant seven
    days and the lookback window is the configured [syncStartDaysAgo],
    which is not compared with it.  Take a lookback of at most seven
    days for which the date arithmetic of the fetch stays within 64-bit
    seconds.  An entry that a cycle prunes belongs to a transaction
    that, recorded no earlier than it was posted, was posted less than
    one second after the start of every fetch window computed from that
    clock reading on (the start is sent in whole seconds); and when the
    lookback is shorter than seven days the transaction was posted
    before the start of every such window. *)
Theorem retention_covers_lookback config (now1 now2 ts posted : Time) :
  Int64.min_int < SyncStartDaysAgo config <= retentionDays ->
  Int64.in_range (wall now2 / nsPerSecond + unixToInternal
                  - SyncStartDaysAgo config * secondsPerDay) ->
  wall now1 <= wall now2 ->
  wall posted <= wall ts ->
  Before ts (cutoffOf now1) = true ->
  wall posted < wall (fetchStart config now2) + nsPerSecond /\
  (lookbackDays config < retentionDays ->
   Before posted (fetchStart config now2) = true).
Proof.
  intros [Hlo Hhi] Hrange Hclock Hposted Hpruned.
  assert (Hneg : Int64.neg (SyncStartDaysAgo config)
                 = - SyncStartDaysAgo config).
  { apply wrap_in_range.
    unfold Int64.in_range, Int64.min_int, Int64.max_int, retentionDays in *.
    change (2 ^ 63) with 9223372036854775808 in *. lia. }
  assert (Hstart : wall (fetchStart config now2)
                   = (wall now2 / nsPerSecond
                      - SyncStartDaysAgo config * secondsPerDay)
                     * nsPerSecond).
  { unfold fetchStart. rewrite Hneg, AddDate_AddDays.
    - unfold truncateSecond, AddDays, nsPerDay, secondsPerDay, nsPerSecond.
      cbn [wall]. Z.div_mod_to_equations. lia.
    - replace (wall now2 / nsPerSecond + unixToInternal
               + - SyncStartDaysAgo config * secondsPerDay)
        with (wall now2 / nsPerSecond + unixToInternal
              - SyncStartDaysAgo config * secondsPerDay) by lia.
      exact Hrange. }
  unfold Before, cutoffOf, AddDays in Hpruned. cbn [wall] in Hpruned.
  apply Z.ltb_lt in Hpruned.
  unfold lookbackDays, Before. rewrite Hstart.
  unfold retentionDays, nsPerDay, secondsPerDay, nsPerSecond in *.
  split; [|intros Hshort; apply Z.ltb_lt];
    Z.div_mod_to_equations; lia.
Qed.

Lemma retention_covers_lookback_witness :
  Before (mkTime (Scenario.day 91) 0)
    (fetchStart (Scenario.config [Scenario.acctA] 3 1)
       (mkTime (Scenario.day 100 + 2) 0)) = true.
Proof.
  apply (retention_covers_lookback (Scenario.config [Scenario.acctA] 3 1)
           (mkTime (Scenario.day 100) 0) (mkTime (Scenario.day 100 + 2) 0)
           (mkTime (Scenario.day 92) 0) (mkTime (Scenario.day 91) 0)).
  - vm_compute. split; [reflexivity | discriminate].
  - vm_compute. split; discriminate.
  - vm_compute. discriminate.
  - vm_compute. discriminate.
  - reflexivity.
  - vm_compute. reflexivity.
Defined.

(** C9, as the claim has it, fails.  The configuration of the README
    runs with a lookback of seven days, which the retention of seven days
    does not exceed; and a file that sets the lookback to 30 days is
    accepted, with which the entry of a transaction posted on day 91 and
    recorded on day 92 is pruned on day 100 while the transaction is
    inside the fetch window, so that the cycle hands it to
    [createInvoiceNinjaTransaction] again. *)
Lemma retention_exceeds_lookback_counterexample :
  (exists config,
     loadConfig (fun _ => None)
       (Object (mkConfigFile (Some "key") (Some "token")
                  (Some "https://ninja.example") None None None None))
       "/data" ""
     = Ok config /\
     ~ lookbackDays config < retentionDays) /\
  (exists config,
     loadConfig (fun _ => None)
       (Object (mkConfigFile (Some "key") (Some "token")
                  (Some "https://ninja.example") None None
                  (Some (Int64.mkInt 30 eq_refl)) None))
       "/data" ""
     = Ok config /\
     ~ lookbackDays config < retentionDays /\
     Scenario.staleLedger !! "tx-0" = Some (mkTime (Scenario.day 92) 0) /\
     prunedAt Scenario.envOld Scenario.w0 Scenario.staleLedger !! "tx-0" = None /\
     Before (PostedAt Scenario.tx0)
       (fetchStart config (nowAt Scenario.envOld Scenario.w0)) = false /\
     postedIDs (syncTrace Scenario.envOld
                  (Scenario.config [Scenario.acctA] (lookbackDays config) 1)
                  Scenario.staleLedger Scenario.w0) = ["tx-0"]).
Proof.
  split.
  - eexists. split; [reflexivity|]. vm_compute. discriminate.
  - eexists. split; [reflexivity|].
    split; [vm_compute; discriminate|].
    repeat split; vm_compute; reflexivity.
Qed.

(** ** The scheduler *)

Lemma mainIter_unfold env config (st : Ledger) w :
  mainIter env config st w =
  (syncLedger env config st w, iterNextSync env config st w,
   iterWake env config st w,
   syncTrace env config st w ++
   snd (persistStep env (syncLedger env config st w)
          (syncErr env config st w) (syncWorld env config st w)) ++
   [Log LevelDebug "Waiting for next sync" [];
    Sleep (iterSleep env config st w)]).
Proof.
  unfold iterWake, iterSleep, iterNextSync, iterEnd, mainIter.
  unfold bind at 1. rewrite sync_results.
  destruct (syncErr env config st w) as [e|].
  - reflexivity.
  - unfold persistStep. unfold bind at 1. unfold bind at 1.
    destruct (saveState env _ _) as [[[e|] w2] t2]; simpl;
      by rewrite ?app_nil_r, <- ?app_assoc.
Qed.

Lemma wrap_bounds z : Int64.min_int <= Int64.wrap z <= Int64.max_int.
Proof.
  unfold Int64.wrap, Int64.min_int, Int64.max_int, Int64.modulus.
  change (2 ^ 63) with 9223372036854775808.
  change (2 ^ 64) with 18446744073709551616.
  pose proof (Z.mod_pos_bound (z + 9223372036854775808) 18446744073709551616).
  lia.
Qed.

Lemma saturate_ge z : z <= Int64.max_int -> z <= Int64.saturate z.
Proof. unfold Int64.saturate. lia. Qed.

Lemma sync_world env config (st : Ledger) w :
  disk (syncWorld env config st w) = disk w /\
  ((forall k, 0 <= latency env k) ->
   clock w <= clock (syncWorld env config st w)).
Proof.
  destruct (sync_accounts env config st w) as (t0 & E & _).
  split.
  - by apply syncAccounts_disk in E.
  - intros Hlat. apply syncAccounts_clock in E; [|done].
    pose proof (advance_clock env w Hlat). lia.
Qed.

Lemma persistStep_clock env (st : Ledger) err w :
  (forall k, 0 <= latency env k) ->
  clock w <= clock (fst (persistStep env st err w)).
Proof.
  intros Hlat. destruct err as [e|]; simpl; [lia|].
  specialize (Hlat (tick w)).
  unfold saveState, bind, interact, emit, setDisk, ret. simpl.
  destruct (saveResp env (tick w)); simpl; lia.
Qed.

Lemma mainLoop_S env config n (st : Ledger) w :
  mainLoop env config (S n) st w =
  {| cycleStart := clock w;
     cycleErr := syncErr env config st w;
     cycleTrace := iterTrace env config st w;
     cycleNextSync := iterNextSync env config st w;
     cycleLedger := syncLedger env config st w;
     cycleWorld := iterWake env config st w |}
  :: mainLoop env config n (syncLedger env config st w)
       (iterWake env config st w).
Proof. cbn [mainLoop]. by rewrite mainIter_unfold. Qed.


Lemma iter_error_logged env config (st : Ledger) w e :
  syncErr env config st w = Some e ->
  Log LevelError "Error in sync" [("error", e)] ∈ iterTrace env config st w.
Proof.
  intros He. unfold iterTrace. rewrite He. simpl.
  apply elem_of_app; right. apply list_elem_of_here.
Qed.

(** *** How long a turn takes *)












(** ** What stays in memory between cycles *)

Lemma elem_posts t tx body r : Post tx body r ∈ posts t <-> Post tx body r ∈ t.
Proof.
  unfold posts. rewrite !list_elem_of_In, List.filter_In. simpl. tauto.
Qed.

Lemma postedIDs_posts t : postedIDs (posts t) = postedIDs t.
Proof.
  induction t as [|x t IH]; [done|]. destruct x; simpl; by rewrite ?IH.
Qed.

Lemma postsFor_posts id t : postsFor id (posts t) = postsFor id t.
Proof.
  induction t as [|x t IH]; [done|]. destruct x; simpl; try done.
  destruct (String.eqb (ID tx) id); by rewrite IH.
Qed.

Lemma posts_app t1 t2 : posts (t1 ++ t2) = posts t1 ++ posts t2.
Proof. unfold posts. apply List.filter_app. Qed.

(** The step that follows the cycle issues no request to either API. *)
Lemma persistStep_quiet env (st : Ledger) err w x :
  x ∈ snd (persistStep env st err w) ->
  (exists l o, x = Save l o) \/ (exists msg attrs, x = Log LevelError msg attrs).
Proof.
  destruct err as [e|]; simpl.
  - intros ->%list_elem_of_singleton. right. eauto.
  - unfold saveState, bind, interact, emit, setDisk, ret. simpl.
    destruct (saveResp env (tick w)); simpl; intros Hin; elems; subst; eauto.
Qed.

Lemma posts_iterTrace env config (st : Ledger) w :
  posts (iterTrace env config st w) = posts (syncTrace env config st w).
Proof.
  unfold iterTrace. rewrite !posts_app.
  assert (Hq : posts (snd (persistStep env (syncLedger env config st w)
                 (syncErr env config st w) (syncWorld env config st w))) = []).
  { pose proof (persistStep_quiet env (syncLedger env config st w)
                  (syncErr env config st w) (syncWorld env config st w)) as Hq.
    induction (snd (persistStep env _ _ _)) as [|x l IH]; [done|].
    destruct (Hq x (list_elem_of_here _ _)) as [(l0 & o & ->)|(m & a & ->)];
      simpl; apply IH; intros y Hy; apply Hq; by apply list_elem_of_further. }
  rewrite Hq. simpl. by rewrite app_nil_r.
Qed.

Lemma fetch_iterTrace env config (st : Ledger) w a s r :
  Fetch a s r ∈ iterTrace env config st w ->
  Fetch a s r ∈ syncTrace env config st w.
Proof.
  unfold iterTrace. intros [Hin|[Hin|Hin]%elem_of_app]%elem_of_app; [done| |].
  - by apply persistStep_quiet in Hin as [(l & o & ?)|(m & at' & ?)].
  - elems.
Qed.

(** When no post failed, every fetched transaction is in the map at the
    end of the cycle. *)
Lemma sync_covers env config (st : Ledger) w a s txs tx :
  syncErr env config st w = None ->
  Fetch a s (Ok txs) ∈ syncTrace env config st w -> tx ∈ txs ->
  is_Some (syncLedger env config st w !! ID tx).
Proof.
  intros Herr Hin Htx.
  destruct (sync_accounts env config st w) as (t0 & E & Hsub & Hsup).
  rewrite Herr in E. destruct (Hsup _ Hin) as [Hin0|?]; [|done].
  by eapply syncAccounts_covers.
Qed.

(** An id whose entry survives the pruning of a cycle is not posted in
    that cycle, and keeps its entry. *)
Lemma sync_skips_known env config (st : Ledger) w id ts :
  st !! id = Some ts ->
  Before ts (cutoffOf (nowAt env w)) = false ->
  postsFor id (syncTrace env config st w) = [] /\
  syncLedger env config st w !! id = Some ts.
Proof.
  intros Hts Hkeep. pose proof (sync_run env config st w) as R.
  assert (Hp : prunedAt env w st !! id = Some ts) by (by apply pruneLoop_Some).
  split; [|by apply (run_preserve _ _ _ _ _ R)].
  apply postsFor_not_posted. intros Hin.
  apply (run_fresh _ _ _ _ _ R) in Hin. congruence.
Qed.

Lemma post_iterTrace env config (st : Ledger) w tx body r :
  Post tx body r ∈ iterTrace env config st w ->
  Post tx body r ∈ syncTrace env config st w.
Proof. intros H. by rewrite <- elem_posts, <- posts_iterTrace, elem_posts. Qed.

Lemma postsFor_iterTrace env config (st : Ledger) w id :
  postsFor id (iterTrace env config st w)
  = postsFor id (syncTrace env config st w).
Proof. by rewrite <- postsFor_posts, posts_iterTrace, postsFor_posts. Qed.

Lemma posts_nil t : (forall tx body r, Post tx body r ∉ t) -> posts t = [].
Proof.
  induction t as [|x t IH]; [done|]. intros Hno.
  assert (Ht : posts t = []).
  { apply IH. intros tx body r Hin. apply (Hno tx body r).
    by apply list_elem_of_further. }
  destruct x; simpl; try exact Ht.
  exfalso. eapply Hno. apply list_elem_of_here.
Qed.

(** A cycle makes at most one call of [createInvoiceNinjaTransaction]:
    none when it returns nil, and otherwise the one whose error it
    returns, made for a transaction that is not in the pruned map, as
    its last act. *)
Lemma sync_outcome env config (st : Ledger) w :
  (syncErr env config st w = None /\
   posts (syncTrace env config st w) = []) \/
  (exists tx,
     syncErr env config st w = Some (requestError config tx) /\
     posts (syncTrace env config st w)
     = [Post tx (bankTX config tx) (Some (requestError config tx))] /\
     prunedAt env w st !! ID tx = None).
Proof.
  pose proof (sync_run env config st w) as R.
  destruct (sync_frame env config st w) as [_ Hp].
  destruct (syncErr env config st w) as [e|] eqn:Herr.
  - right.
    destruct (run_aborted _ _ _ _ _ R e eq_refl)
      as (t0 & tx & body & Ht & Hok).
    assert (Hin : Post tx body (Some e) ∈ syncTrace env config st w).
    { rewrite Ht. apply elem_of_app; right. apply list_elem_of_here. }
    pose proof (run_body _ _ _ _ _ R _ _ _ Hin) as ->.
    pose proof (Hp _ _ _ Hin) as [= ->].
    exists tx. split; [done|]. split.
    + rewrite Ht, posts_app, posts_nil; [done|].
      intros tx' body' r Hin'. pose proof (Hok _ _ _ Hin') as ->.
      assert (Hin2 : Post tx' body' None ∈ syncTrace env config st w).
      { rewrite Ht. apply elem_of_app; by left. }
      by apply Hp in Hin2.
    + apply (run_fresh _ _ _ _ _ R), in_postedIDs. eauto.
  - left. split; [done|]. apply posts_nil. intros tx body r Hin.
    pose proof (run_completed _ _ _ _ _ R eq_refl _ _ _ Hin) as ->.
    by apply Hp in Hin.
Qed.

Lemma sync_quiet env config (st : Ledger) w x :
  x ∈ syncTrace env config st w ->
  (forall l o, x <> Save l o) /\ (forall d, x <> Sleep d).
Proof.
  destruct (sync_accounts env config st w) as (t0 & E & Hsub & Hsup).
  intros [Hin| ->]%Hsup; [by eapply syncAccounts_quiet | done].
Qed.

(** C1.  The run of the claim, in which the first of two posts
    succeeds, does not exist: the first call of
    [createInvoiceNinjaTransaction] of a cycle fails in [getRequest] and
    ends the cycle.  In a turn of the loop in which a call is made, that
    call is the only one of the cycle; its error is returned and logged,
    the state file is neither written nor changed, and the map in memory
    is the pruned map, without the transaction's id.  The next cycle
    starts from that map, makes at most one call as well, and fails
    again when the source reports the transaction again: no cycle ever
    attempts two transactions. *)
Theorem cycle_stops_at_first_new_transaction env config (st : Ledger) w
    c1 c2 tx body r :
  mainLoop env config 2 st w = [c1; c2] ->
  Post tx body r ∈ cycleTrace c1 ->
  posts (cycleTrace c1)
  = [Post tx (bankTX config tx) (Some (requestError config tx))] /\
  cycleErr c1 = Some (requestError config tx) /\
  Log LevelError "Error in sync" [("error", requestError config tx)]
    ∈ cycleTrace c1 /\
  (forall l o, Save l o ∉ cycleTrace c1) /\
  disk (cycleWorld c1) = disk w /\
  cycleLedger c1 = prunedAt env w st /\
  cycleLedger c1 !! ID tx = None /\
  cycleLedger c2 = prunedAt env (cycleWorld c1) (cycleLedger c1) /\
  (length (posts (cycleTrace c2)) <= 1)%nat /\
  (forall a s txs,
     Fetch a s (Ok txs) ∈ cycleTrace c2 -> tx ∈ txs ->
     exists tx',
       cycleErr c2 = Some (requestError config tx') /\
       posts (cycleTrace c2)
       = [Post tx' (bankTX config tx') (Some (requestError config tx'))]).
Proof.
  intros Hloop Hin. rewrite !mainLoop_S in Hloop.
  injection Hloop as <- <-.
  cbn [cycleTrace cycleErr cycleLedger cycleWorld] in *.
  apply post_iterTrace in Hin.
  destruct (sync_frame env config st w) as [Hst _].
  destruct (sync_outcome env config st w)
    as [[_ Hnone]|(tx' & Herr & Hposts & Hfresh)].
  { apply elem_posts in Hin. rewrite Hnone in Hin. elems. }
  assert (tx' = tx) as ->.
  { apply elem_posts in Hin. rewrite Hposts in Hin.
    apply list_elem_of_singleton in Hin. by injection Hin as ->. }
  assert (Hone : syncLedger env config st w !! ID tx = None)
    by (by rewrite Hst).
  split; [by rewrite posts_iterTrace|]. split; [done|].
  split; [by apply iter_error_logged|]. split.
  { intros l o. unfold iterTrace. rewrite Herr. simpl. intros Hs.
    apply elem_of_app in Hs as [Hs|Hs]; [|elems].
    by destruct (sync_quiet _ _ _ _ _ Hs) as [Hno _]; eapply Hno. }
  split.
  { unfold iterWake, iterEnd. rewrite Herr. simpl.
    apply (sync_world env config st w). }
  split; [done|]. split; [done|].
  destruct (sync_frame env config (syncLedger env config st w)
              (iterWake env config st w)) as [Hst2 _].
  split; [done|].
  destruct (sync_outcome env config (syncLedger env config st w)
              (iterWake env config st w))
    as [[Herr2 Hnone2]|(tx2 & Herr2 & Hposts2 & _)].
  - split; [by rewrite posts_iterTrace, Hnone2; simpl; lia|].
    intros a s txs Hf%fetch_iterTrace Htx.
    destruct (sync_covers _ _ _ _ _ _ _ _ Herr2 Hf Htx) as [ts Hts].
    rewrite Hst2 in Hts. apply pruneLoop_Some in Hts as [Hts _]. congruence.
  - split; [by rewrite posts_iterTrace, Hposts2|].
    intros a s txs _ _. exists tx2. by rewrite posts_iterTrace.
Qed.

(** The run of the claim: one account reports [tx-1] and [tx-2], neither
    of which is in the map, and the server would accept the first record
    and refuse the second.  Both cycles call
    [createInvoiceNinjaTransaction] for [tx-1] only and fail there;
    [tx-2] is not attempted in either. *)
Lemma cycle_stops_at_first_new_transaction_witness :
  exists c1 c2,
    mainLoop Scenario.envSecondPostFails
      (Scenario.config [Scenario.acctA] 7 1) 2 ∅ Scenario.w0 = [c1; c2] /\
    posts (cycleTrace c1)
    = [Post Scenario.tx1
         (bankTX (Scenario.config [Scenario.acctA] 7 1) Scenario.tx1)
         (Some (requestError (Scenario.config [Scenario.acctA] 7 1)
                  Scenario.tx1))] /\
    requestError (Scenario.config [Scenario.acctA] 7 1) Scenario.tx1
    = "error creating request: "
      +:+ "POST https://ninja.example/api/v1/bank_transactions: "
      +:+ "cannot handle type main.InvoiceNinjaBankTX" /\
    cycleLedger c1 = ∅ /\
    disk (cycleWorld c1) = NoFile /\
    postedIDs (cycleTrace c1) = ["tx-1"] /\
    postedIDs (cycleTrace c2) = ["tx-1"].
Proof.
  pose proof (cycle_stops_at_first_new_transaction
                Scenario.envSecondPostFails
                (Scenario.config [Scenario.acctA] 7 1) ∅ Scenario.w0) as H.
  rewrite !mainLoop_S in H.
  eexists _, _. split; [rewrite !mainLoop_S; reflexivity|].
  destruct (H _ _ Scenario.tx1
              (bankTX (Scenario.config [Scenario.acctA] 7 1) Scenario.tx1)
              (Some (requestError (Scenario.config [Scenario.acctA] 7 1)
                       Scenario.tx1)) eq_refl)
    as (Hposts & _ & _ & _ & Hdisk & Hled & _).
  - cbn [cycleTrace]. vm_compute. in_trace.
  - split; [exact Hposts|]. split; [reflexivity|].
    split; [rewrite Hled; vm_compute; reflexivity|].
    split; [exact Hdisk|]. split; vm_compute; reflexivity.
Defined.




(** * Further properties of the engine *)

(** ** What a completed cycle posts *)

Lemma sync_post_from_fetch env config (st : Ledger) w tx body r :
  Post tx body r ∈ syncTrace env config st w ->
  exists a s txs, Fetch a s (Ok txs) ∈ syncTrace env config st w /\ tx ∈ txs.
Proof.
  destruct (sync_accounts env config st w) as (t0 & E & Hsub & Hsup).
  intros [Hin|Heq]%Hsup; [|discriminate].
  destruct (syncAccounts_posts_fetched _ _ _ _ _ _ _ _ _ _ _ _ E Hin)
    as (a & s & txs & Hf & Htx).
  exists a, s, txs. split; [by apply Hsub | done].
Qed.

(** A cycle returns no error exactly when every transaction the source
    reported to it has an entry that the pruning at its start kept.  A
    single transaction without such an entry is handed to
    [createInvoiceNinjaTransaction], whose error the cycle returns: the
    program confirms what its state file already lists and can do
    nothing else. *)
Theorem cycle_completes_iff_nothing_is_new env config (st : Ledger) w :
  syncErr env config st w = None <->
  (forall a s txs tx,
     Fetch a s (Ok txs) ∈ syncTrace env config st w -> tx ∈ txs ->
     is_Some (prunedAt env w st !! ID tx)).
Proof.
  destruct (sync_frame env config st w) as [Hst _]. split.
  - intros Herr a s txs tx Hf Htx. rewrite <- Hst. by eapply sync_covers.
  - intros Hknown.
    destruct (sync_outcome env config st w)
      as [[Herr _]|(tx & _ & Hposts & Hfresh)]; [done|].
    assert (Hin : Post tx (bankTX config tx) (Some (requestError config tx))
                  ∈ syncTrace env config st w).
    { apply elem_posts. rewrite Hposts. apply list_elem_of_here. }
    destruct (sync_post_from_fetch _ _ _ _ _ _ _ Hin) as (a & s & txs & Hf & Htx).
    destruct (Hknown a s txs tx Hf Htx) as [ts Hts]. congruence.
Qed.

(** ** The times in the map *)

Section Stamps.

Context (env : Env) (config : Config).
Hypothesis Hlat : forall k, 0 <= latency env k.

Ltac tx_cases tx st w :=
  let ts := fresh "ts" in
  let Hst := fresh "Hst" in
  destruct (st !! ID tx) as [ts|] eqn:Hst;
  [ rewrite (syncTxs_known env config _ _ _ _ _ ts Hst)
  | rewrite (syncTxs_post_failed env config _ _ _ _ _ Hst) ].

(** An entry of the map after the loop is an entry of the map before it,
    or was stamped with a clock reading taken during the loop. *)
Lemma syncTxs_stamps txs (st : Ledger) p w err st' p' w' t id ts :
  syncTxs env config txs st p w = (err, st', p', w', t) ->
  st' !! id = Some ts ->
  st !! id = Some ts \/
  (st !! id = None /\ clock w <= wall ts <= clock w').
Proof.
  revert st p w err st' p' w' t.
  induction txs as [|tx rest IH]; intros st p w err st' p' w' t.
  - intros [= <- <- <- <- <-]. by left.
  - tx_cases tx st w.
    + destruct (syncTxs env config rest st p w) as [[[[err0 st0] p0] w0] t0] eqn:E.
      intros [= <- <- <- <- <-]. by eapply IH.
    + intros [= <- <- <- <- <-]. by left.
Qed.

Lemma syncAccounts_stamps accts (st : Ledger) w err st' w' t id ts :
  syncAccounts env config accts st w = (err, st', w', t) ->
  st' !! id = Some ts ->
  st !! id = Some ts \/
  (st !! id = None /\ clock w <= wall ts <= clock w').
Proof.
  revert st w err st' w' t.
  induction accts as [|a rest IH]; intros st w err st' w' t.
  - intros [= <- <- <- <-]. by left.
  - pose proof (advance_clock env w Hlat) as Ha1.
    pose proof (advance_clock env (advance env w) Hlat) as Ha2.
    rewrite (syncAccounts_cons env config a rest st w). cbv zeta.
    destruct (fetchAt env config a w) as [[|tx txs]|e] eqn:Hf.
    + destruct (syncAccounts env config rest st _) as [[[r0 st0] w0] t0] eqn:E.
      intros [= <- <- <- <-] Hts.
      destruct (IH _ _ _ _ _ _ E Hts) as [?|[? ?]]; [by left | right].
      split; [done | lia].
    + destruct (syncTxs env config (tx :: txs) st 0 _)
        as [[[[[e|] st1] p1] w1] t1] eqn:E1.
      * intros [= <- <- <- <-] Hts.
        destruct (syncTxs_stamps _ _ _ _ _ _ _ _ _ _ _ E1 Hts) as [?|[? ?]];
          [by left | right]. split; [done | lia].
      * destruct (syncAccounts env config rest st1 w1)
          as [[[r0 st0] w0] t0] eqn:E.
        intros [= <- <- <- <-] Hts.
        pose proof (syncTxs_clock env config _ _ _ _ _ _ _ _ _ Hlat E1) as Hc1.
        pose proof (syncAccounts_clock env config _ _ _ _ _ _ _ Hlat E) as Hc2.
        destruct (IH _ _ _ _ _ _ E Hts) as [Hold|[Hnew Hrange]].
        -- destruct (syncTxs_stamps _ _ _ _ _ _ _ _ _ _ _ E1 Hold)
             as [?|[? ?]]; [by left | right]. split; [done | lia].
        -- right. split; [|lia].
           destruct (st !! id) as [ts'|] eqn:Hs; [|done].
           apply (run_preserve _ _ _ _ _
                    (syncTxs_run env config _ _ _ _ _ _ _ _ _ E1)) in Hs.
           congruence.
    + destruct (syncAccounts env config rest st _) as [[[r0 st0] w0] t0] eqn:E.
      intros [= <- <- <- <-] Hts.
      destruct (IH _ _ _ _ _ _ E Hts) as [?|[? ?]]; [by left | right].
      split; [done | lia].
Qed.

End Stamps.

(** After a cycle, every entry of the map was recorded no earlier than
    seven days before the first clock reading of the cycle: it is an
    entry of the map before, with its time unchanged, or it carries a
    clock reading taken during this cycle. *)
Theorem ledger_within_retention_after_cycle env config (st : Ledger) w id ts :
  (forall k, 0 <= latency env k) ->
  syncLedger env config st w !! id = Some ts ->
  wall (nowAt env w) - retentionDays * nsPerDay <= wall ts /\
  (st !! id = Some ts \/
   (st !! id = None \/ exists ts', st !! id = Some ts' /\
                         wall ts' < wall (nowAt env w) - retentionDays * nsPerDay) /\
   wall (nowAt env w) <= wall ts <= clock (syncWorld env config st w)).
Proof.
  intros Hlat Hts.
  destruct (sync_accounts env config st w) as (t0 & E & _).
  destruct (syncAccounts_stamps env config Hlat _ _ _ _ _ _ _ _ _ E Hts)
    as [Hold|[Hnew Hrange]].
  - apply pruneLoop_Some in Hold as [Hold Hkeep].
    unfold Before, cutoffOf, AddDays in Hkeep. simpl in Hkeep.
    apply Z.ltb_ge in Hkeep. split; [simpl; lia | by left].
  - change (wall (nowAt env w)) with (clock (advance env w)).
    split; [unfold retentionDays, nsPerDay, secondsPerDay, nsPerSecond; lia|].
    right. split; [|done].
    unfold prunedAt in Hnew. rewrite pruneLoop_lookup in Hnew.
    destruct (st !! id) as [ts'|]; [|by left]. right. exists ts'.
    split; [done|].
    destruct (Before ts' (cutoffOf (nowAt env w))) eqn:Hb; [|done].
    unfold Before, cutoffOf, AddDays in Hb. simpl in Hb.
    apply Z.ltb_lt in Hb. simpl. lia.
Qed.

Lemma ledger_within_retention_after_cycle_witness :
  wall (nowAt Scenario.envOld Scenario.w0) - retentionDays * nsPerDay
  <= Scenario.day 99.
Proof.
  apply (ledger_within_retention_after_cycle Scenario.envOld
           (Scenario.config [Scenario.acctA] 30 1)
           {[ "tx-0" := mkTime (Scenario.day 99) 0 ]}
           Scenario.w0 "tx-0" (mkTime (Scenario.day 99) 0)).
  - intros k. vm_compute. discriminate.
  - vm_compute. reflexivity.
Defined.

(** ** No second post while the entry lives *)

Lemma iter_clock_chain env config (st : Ledger) w :
  (forall k, 0 <= latency env k) ->
  wall (nowAt env w) <= wall (nowAt env (iterEnd env config st w)) /\
  wall (nowAt env (iterEnd env config st w))
  <= clock (iterWake env config st w).
Proof.
  intros Hlat.
  destruct (sync_accounts env config st w) as (t0 & E & _).
  apply syncAccounts_clock in E; [|done].
  pose proof (persistStep_clock env (syncLedger env config st w)
                (syncErr env config st w) (syncWorld env config st w) Hlat) as H2.
  fold (iterEnd env config st w) in H2.
  set (w2 := iterEnd env config st w) in *.
  pose proof (advance_clock env w2 Hlat) as H3.
  pose proof (advance_clock env (advance env w2) Hlat) as H4.
  pose proof (Hlat (tick (advance env (advance env w2)))) as H5.
  split.
  - change (wall (nowAt env w)) with (clock (advance env w)).
    change (wall (nowAt env w2)) with (clock (advance env w2)). lia.
  - change (wall (nowAt env w2)) with (clock (advance env w2)).
    unfold iterWake. fold w2. cbn [clock]. lia.
Qed.

Lemma cycleEndWall_head env config (st : Ledger) w :
  cycleEndWall config
    {| cycleStart := clock w;
       cycleErr := syncErr env config st w;
       cycleTrace := iterTrace env config st w;
       cycleNextSync := iterNextSync env config st w;
       cycleLedger := syncLedger env config st w;
       cycleWorld := iterWake env config st w |}
  = wall (nowAt env (iterEnd env config st w)).
Proof. unfold cycleEndWall, iterNextSync, Add. simpl. lia. Qed.

Lemma mainLoop_start_le_end env config n (st : Ledger) w j cj :
  (forall k, 0 <= latency env k) ->
  mainLoop env config n st w !! j = Some cj ->
  wall (nowAt env w) <= cycleEndWall config cj.
Proof.
  intros Hlat. revert st w j.
  induction n as [|n IH]; intros st w j; [done|].
  rewrite mainLoop_S.
  destruct (iter_clock_chain env config st w Hlat) as [H1 H2].
  destruct j as [|j].
  - intros [= <-]. rewrite cycleEndWall_head. lia.
  - intros Hj. change ((?x :: ?l) !! S j) with (l !! j) in Hj.
    apply IH in Hj.
    pose proof (advance_clock env (iterWake env config st w) Hlat) as H3.
    change (wall (nowAt env (iterWake env config st w)))
      with (clock (advance env (iterWake env config st w))) in Hj. lia.
Qed.

(** An entry of the map with which the loop starts is kept, with its
    time, by every turn at whose end it is still inside the retention
    window, and in none of these turns is
    [createInvoiceNinjaTransaction] called for its transaction, however
    often the source reports it. *)
Theorem known_entry_is_kept_and_never_posted env config n (st : Ledger) w
    id ts j cj :
  (forall k, 0 <= latency env k) ->
  st !! id = Some ts ->
  mainLoop env config n st w !! j = Some cj ->
  cycleEndWall config cj - retentionDays * nsPerDay <= wall ts ->
  postsFor id (cycleTrace cj) = [] /\ cycleLedger cj !! id = Some ts.
Proof.
  intros Hlat. revert st w j.
  induction n as [|n IH]; intros st w j Hts Hj Hin; [done|].
  pose proof (mainLoop_start_le_end env config _ st w j cj Hlat Hj) as Hle.
  assert (Hkeep : Before ts (cutoffOf (nowAt env w)) = false).
  { unfold Before, cutoffOf, AddDays. simpl. apply Z.ltb_ge.
    change (clock w + latency env (tick w)) with (wall (nowAt env w)). lia. }
  destruct (sync_skips_known env config st w id ts Hts Hkeep) as [Hno Hst1].
  rewrite mainLoop_S in Hj. destruct j as [|j].
  - injection Hj as <-. cbn [cycleTrace cycleLedger].
    by rewrite postsFor_iterTrace.
  - change ((?x :: ?l) !! S j) with (l !! j) in Hj. by eapply IH.
Qed.

Lemma known_entry_is_kept_and_never_posted_witness :
  exists cj,
    mainLoop Scenario.envOld (Scenario.config [Scenario.acctA] 30 1) 3
      {[ "tx-0" := mkTime (Scenario.day 99) 0 ]} Scenario.w0 !! 2%nat
    = Some cj /\
    postsFor "tx-0" (cycleTrace cj) = [] /\
    cycleLedger cj !! "tx-0" = Some (mkTime (Scenario.day 99) 0).
Proof.
  eexists. split; [rewrite !mainLoop_S; reflexivity|].
  apply (known_entry_is_kept_and_never_posted Scenario.envOld
           (Scenario.config [Scenario.acctA] 30 1) 3
           {[ "tx-0" := mkTime (Scenario.day 99) 0 ]} Scenario.w0
           "tx-0" (mkTime (Scenario.day 99) 0) 2).
  - intros k. vm_compute. discriminate.
  - reflexivity.
  - rewrite !mainLoop_S. reflexivity.
  - vm_compute. discriminate.
Defined.

(** ** What the process can write *)

(** The map never gains an entry.  In every turn of the loop the map in
    memory is a part of the map the loop started with, each entry with
    the time it had, and a write of the state file writes exactly that
    map: the file the process leaves never lists a transaction that the
    file it loaded did not list. *)
Theorem ledger_never_grows env config n (st : Ledger) w j cj :
  mainLoop env config n st w !! j = Some cj ->
  cycleLedger cj ⊆ st /\
  (forall l o, Save l o ∈ cycleTrace cj -> l = cycleLedger cj).
Proof.
  revert st w j. induction n as [|n IH]; intros st w j; [done|].
  rewrite mainLoop_S.
  destruct (sync_frame env config st w) as [Hst _].
  assert (Hsub : syncLedger env config st w ⊆ st).
  { rewrite Hst. apply map_subseteq_spec. intros id ts Hid.
    by apply pruneLoop_Some in Hid as [Hid _]. }
  destruct j as [|j].
  - intros [= <-]. cbn [cycleLedger cycleTrace]. split; [done|].
    intros l o. unfold iterTrace. intros Hin.
    apply elem_of_app in Hin as [Hin|Hin].
    { by destruct (sync_quiet _ _ _ _ _ Hin) as [Hno _]; edestruct Hno. }
    apply elem_of_app in Hin as [Hin|Hin]; [|elems].
    unfold persistStep in Hin.
    destruct (syncErr env config st w) as [e|]; [cbn [snd] in Hin; elems|].
    revert Hin. unfold saveState, bind, interact, emit, setDisk, ret.
    cbn [fst snd].
    destruct (saveResp env _); cbn [snd app]; intros Hin; elems;
      by injection Hin as -> _.
  - intros Hj. change ((?x :: ?l) !! S j) with (l !! j) in Hj.
    destruct (IH _ _ _ Hj) as [Hsub' Hsave]. split; [|done].
    by etransitivity.
Qed.

Lemma ledger_never_grows_witness :
  exists cj,
    mainLoop Scenario.envOk (Scenario.config [Scenario.acctA] 7 1) 2
      Scenario.staleLedger Scenario.w0 !! 1%nat = Some cj /\
    cycleLedger cj ⊆ Scenario.staleLedger.
Proof.
  eexists. split; [rewrite !mainLoop_S; reflexivity|].
  apply (ledger_never_grows Scenario.envOk
           (Scenario.config [Scenario.acctA] 7 1) 2 Scenario.staleLedger
           Scenario.w0 1).
  rewrite !mainLoop_S. reflexivity.
Defined.

(** ** The order of the posts of one account *)

Section Order.

Context (env : Env) (config : Config).

Ltac tx_cases tx st w :=
  let ts := fresh "ts" in
  let Hst := fresh "Hst" in
  destruct (st !! ID tx) as [ts|] eqn:Hst;
  [ rewrite (syncTxs_known env config _ _ _ _ _ ts Hst)
  | rewrite (syncTxs_post_failed env config _ _ _ _ _ Hst) ].

(** The loop over the transactions of an account attempts a post for
    the ids that are not in the map, each at its first occurrence and in
    the order of the list, up to the first failure: the ids attempted
    are a prefix of [newIDs], all of it when no post failed.  The
    counter [processed] grows by the number of posts that succeeded. *)
Theorem syncTxs_posts_new_in_order txs (st : Ledger) p w err st' p' w' t :
  syncTxs env config txs st p w = (err, st', p', w', t) ->
  (exists rest,
     newIDs (dom st) txs = postedIDs t ++ rest /\ (err = None -> rest = [])) /\
  p' = p + Z.of_nat (length (postedIDs t))
       - match err with Some _ => 1 | None => 0 end.
Proof.
  revert st p w err st' p' w' t.
  induction txs as [|tx rest IH]; intros st p w err st' p' w' t.
  - intros [= <- <- <- <- <-]. split; [by exists []|]. simpl. lia.
  - tx_cases tx st w.
    + destruct (syncTxs env config rest st p w) as [[[[err0 st0] p0] w0] t0] eqn:E.
      intros [= <- <- <- <- <-]. apply IH in E as [(r & Hr & Hnil) Hp].
      split; [|exact Hp]. exists r. split; [|exact Hnil].
      cbn [newIDs postedIDs flat_map app].
      destruct (decide (ID tx ∈ dom st)) as [_|Hn]; [exact Hr|].
      exfalso. apply Hn, elem_of_dom. eauto.
    + intros [= <- <- <- <- <-].
      split; [|simpl; lia].
      exists (newIDs ({[ID tx]} ∪ dom st) rest). split; [|discriminate].
      cbn [newIDs]. destruct (decide (ID tx ∈ dom st)) as [Hin|_]; [|done].
      apply elem_of_dom in Hin as [ts Hts]. congruence.
Qed.

End Order.

Lemma syncTxs_posts_new_in_order_witness :
  exists rest,
    newIDs (dom Scenario.staleLedger)
      [Scenario.tx1; Scenario.tx0; Scenario.tx2; Scenario.tx1]
    = postedIDs
        (snd (syncTxs Scenario.envOk (Scenario.config [Scenario.acctA] 7 1)
                [Scenario.tx1; Scenario.tx0; Scenario.tx2; Scenario.tx1]
                Scenario.staleLedger 0 Scenario.w0)) ++ rest.
Proof.
  destruct (syncTxs_posts_new_in_order Scenario.envOk
              (Scenario.config [Scenario.acctA] 7 1)
              [Scenario.tx1; Scenario.tx0; Scenario.tx2; Scenario.tx1]
              Scenario.staleLedger 0 Scenario.w0
              (fst (fst (fst (fst (syncTxs Scenario.envOk
                 (Scenario.config [Scenario.acctA] 7 1)
                 [Scenario.tx1; Scenario.tx0; Scenario.tx2; Scenario.tx1]
                 Scenario.staleLedger 0 Scenario.w0)))))
              (snd (fst (fst (fst (syncTxs Scenario.envOk
                 (Scenario.config [Scenario.acctA] 7 1)
                 [Scenario.tx1; Scenario.tx0; Scenario.tx2; Scenario.tx1]
                 Scenario.staleLedger 0 Scenario.w0)))))
              (snd (fst (fst (syncTxs Scenario.envOk
                 (Scenario.config [Scenario.acctA] 7 1)
                 [Scenario.tx1; Scenario.tx0; Scenario.tx2; Scenario.tx1]
                 Scenario.staleLedger 0 Scenario.w0))))
              (snd (fst (syncTxs Scenario.envOk
                 (Scenario.config [Scenario.acctA] 7 1)
                 [Scenario.tx1; Scenario.tx0; Scenario.tx2; Scenario.tx1]
                 Scenario.staleLedger 0 Scenario.w0)))
              (snd (syncTxs Scenario.envOk
                 (Scenario.config [Scenario.acctA] 7 1)
                 [Scenario.tx1; Scenario.tx0; Scenario.tx2; Scenario.tx1]
                 Scenario.staleLedger 0 Scenario.w0)))
    as [(rest & Hrest & _) _].
  - by destruct (syncTxs _ _ _ _ _ _) as [[[[? ?] ?] ?] ?].
  - by exists rest.
Defined.

(** ** Start-up *)

Lemma findIntegration_Some provider igs id :
  findIntegration provider igs = Some id <->
  exists pre ig post,
    igs = pre ++ ig :: post /\ igProviderName ig = provider /\
    igID ig = id /\
    forall x, x ∈ pre -> igProviderName x <> provider.
Proof.
  induction igs as [|ig0 rest IH]; simpl.
  - split; [discriminate|]. intros (pre & ig & post & H & _).
    by destruct pre.
  - destruct (String.eqb_spec (igProviderName ig0) provider) as [Heq|Hne].
    + split.
      * intros [= <-]. exists [], ig0, rest. repeat split; try done.
        intros x Hx. by apply elem_of_nil in Hx.
      * intros (pre & ig & post & H & Hp & Hid & Hpre).
        destruct pre as [|x pre]; simpl in H.
        -- injection H as <- <-. by rewrite Hid.
        -- injection H as <- ->. exfalso.
           apply (Hpre ig0); [apply list_elem_of_here | done].
    + rewrite IH. split.
      * intros (pre & ig & post & -> & Hp & Hid & Hpre).
        exists (ig0 :: pre), ig, post. repeat split; try done.
        intros x [->|Hx]%elem_of_cons; [done | by apply Hpre].
      * intros (pre & ig & post & H & Hp & Hid & Hpre).
        destruct pre as [|x pre]; simpl in H.
        -- injection H as <- <-. done.
        -- injection H as <- ->. exists pre, ig, post.
           repeat split; try done.
           intros y Hy. by apply Hpre, list_elem_of_further.
Qed.

Lemma findIntegration_None provider igs :
  findIntegration provider igs = None <->
  forall x, x ∈ igs -> igProviderName x <> provider.
Proof.
  induction igs as [|ig0 rest IH]; simpl.
  - split; [|done]. intros _ x Hx. by apply elem_of_nil in Hx.
  - destruct (String.eqb_spec (igProviderName ig0) provider) as [Heq|Hne].
    + split; [discriminate|]. intros H. exfalso.
      by apply (H ig0); [apply list_elem_of_here|].
    + rewrite IH. split.
      * intros H x [->|Hx]%elem_of_cons; [done | by apply H].
      * intros H x Hx. by apply H, list_elem_of_further.
Qed.

(** [fetchBankIntegrationID] succeeds exactly when the request was
    answered with a list in which some integration has the configured
    provider name, compared as it is written; it then stores the id of
    the first such integration and changes nothing else.  On every error
    the configuration is as before, and the function touches neither
    clock nor state file. *)
Theorem fetchBankIntegrationID_first_match resp config w :
  let '(err, config', w', t) := fetchBankIntegrationID resp config w in
  w' = w /\
  match err with
  | None =>
      exists pre ig post,
        resp = Ok (pre ++ ig :: post) /\
        igProviderName ig = BankProvider config /\
        (forall x, x ∈ pre -> igProviderName x <> BankProvider config) /\
        config' = withBankIntegrationID config (igID ig)
  | Some e =>
      config' = config /\
      (resp = Err e \/
       exists igs, resp = Ok igs /\
         forall x, x ∈ igs -> igProviderName x <> BankProvider config)
  end.
Proof.
  unfold fetchBankIntegrationID, bind, slog, emit, ret.
  destruct resp as [igs|e]; simpl.
  - destruct (findIntegration (BankProvider config) igs) as [id|] eqn:E; simpl.
    + split; [done|].
      apply findIntegration_Some in E as (pre & ig & post & -> & Hp & <- & Hpre).
      by exists pre, ig, post.
    + split; [done|]. split; [done|]. right. exists igs. split; [done|].
      by apply findIntegration_None.
  - split; [done|]. split; [done | by left].
Qed.

Example fetchBankIntegrationID_examples :
  let config := Scenario.config [] 7 1 in
  fst (fst (fetchBankIntegrationID
              (Ok [mkIntegration "i1" "Plaid"; mkIntegration "i2" "Mercury";
                   mkIntegration "i3" "Mercury"]) config Scenario.w0))
  = (None, withBankIntegrationID config "i2") /\
  fst (fst (fetchBankIntegrationID
              (Ok [mkIntegration "i1" "mercury"]) config Scenario.w0))
  = (Some "no bank integration found for provider: Mercury", config) /\
  fst (fst (fetchBankIntegrationID (Ok []) config Scenario.w0))
  = (Some "no bank integration found for provider: Mercury", config).
Proof. repeat split. Qed.

(** [loadConfig] accepts exactly when the file can be read, the decoder
    takes its content, the Mercury key and the InvoiceNinja token are
    not empty, and the URL in force passes [url.ParseRequestURI]; the
    URL in force is the one of the file, and the one given on the
    command line only when the file has none.  The checks are made in
    that order, and each failure has its own message.  Nothing else is
    checked: interval, lookback, provider and log level are taken from
    the file as they are, any value of an [int] included, or keep their
    defaults, and the state file is [sync_state.json] in the data
    directory. *)
Theorem loadConfig_accepts_iff parseRequestURI src dataDir flagURL :
  match loadConfig parseRequestURI src dataDir flagURL with
  | Ok config =>
      exists f,
        src = Object f /\
        MercuryAPIKey config = default "" (fMercuryAPIKey f) /\
        MercuryAPIKey config <> "" /\
        InvoiceNinjaToken config = default "" (fInvoiceNinjaToken f) /\
        InvoiceNinjaToken config <> "" /\
        InvoiceNinjaURL config
        = (if String.eqb (default "" (fInvoiceNinjaURL f)) "" then flagURL
           else default "" (fInvoiceNinjaURL f)) /\
        parseRequestURI (InvoiceNinjaURL config) = None /\
        BankProvider config = default "Mercury" (fBankProvider f) /\
        SyncIntervalHours config
        = default 1 (Int64.intval <$> fSyncIntervalHours f) /\
        SyncStartDaysAgo config
        = default 7 (Int64.intval <$> fSyncStartDaysAgo f) /\
        Int64.in_range (SyncIntervalHours config) /\
        Int64.in_range (SyncStartDaysAgo config) /\
        LogLevel config = default "info" (fLogLevel f) /\
        stateFilePath config = filepathJoin dataDir "sync_state.json" /\
        bankIntegrationID config = "" /\ mercuryAccounts config = []
  | Err e =>
      (exists d, src = ReadError d /\
                 e = "error reading config file: " +:+ d) \/
      (exists d, src = DecodeError d /\
                 e = "error parsing config file: " +:+ d) \/
      (exists f, src = Object f /\
         let key := default "" (fMercuryAPIKey f) in
         let token := default "" (fInvoiceNinjaToken f) in
         let url :=
           if String.eqb (default "" (fInvoiceNinjaURL f)) "" then flagURL
           else default "" (fInvoiceNinjaURL f) in
         (key = "" /\ e = "missing Mercury API key") \/
         (key <> "" /\ token = "" /\ e = "missing InvoiceNinja token") \/
         (key <> "" /\ token <> "" /\
          exists d, parseRequestURI url = Some d /\
                    e = "invalid InvoiceNinja URL: " +:+ d))
  end.
Proof.
  destruct src as [d|d|f]; cbn [loadConfig].
  - left. by exists d.
  - right; left. by exists d.
  - unfold unmarshalConfig, defaultConfig.
    cbn [MercuryAPIKey InvoiceNinjaToken InvoiceNinjaURL].
    assert (Hr1 : Int64.in_range
                    (default 1 (Int64.intval <$> fSyncIntervalHours f))).
    { destruct (fSyncIntervalHours f) as [i|]; simpl; [apply int_in_range|].
      unfold Int64.in_range, Int64.min_int, Int64.max_int. lia. }
    assert (Hr2 : Int64.in_range
                    (default 7 (Int64.intval <$> fSyncStartDaysAgo f))).
    { destruct (fSyncStartDaysAgo f) as [i|]; simpl; [apply int_in_range|].
      unfold Int64.in_range, Int64.min_int, Int64.max_int. lia. }
    destruct (String.eqb_spec (default "" (fMercuryAPIKey f)) "") as [Hk|Hk].
    { right; right. exists f. split; [done|]. by left. }
    destruct (String.eqb_spec (default "" (fInvoiceNinjaToken f)) "")
      as [Ht|Ht].
    { right; right. exists f. split; [done|]. right; by left. }
    cbv zeta.
    destruct (String.eqb (default "" (fInvoiceNinjaURL f)) "") eqn:Hu;
      cbn [withURL InvoiceNinjaURL];
      (destruct (parseRequestURI _) as [d|] eqn:Hp;
       [ right; right; exists f; split; [done|]; right; right;
         split; [done|]; split; [done|]; exists d; rewrite Hu; by split
       | exists f; cbn; rewrite Hu; repeat split;
         first [done | apply Hr1 | apply Hr2] ]).
Qed.

Example loadConfig_examples :
  let file url :=
    Object (mkConfigFile (Some "key") (Some "token") url None
              (Some (Int64.mkInt 0 eq_refl)) (Some (Int64.mkInt (-3) eq_refl))
              None) in
  (exists c, loadConfig (fun _ => None) (file (Some "https://a.example"))
               "/data" "https://b.example" = Ok c /\
             InvoiceNinjaURL c = "https://a.example" /\
             SyncIntervalHours c = 0 /\ SyncStartDaysAgo c = -3) /\
  (exists c, loadConfig (fun _ => None) (file None)
               "/data" "https://b.example" = Ok c /\
             InvoiceNinjaURL c = "https://b.example") /\
  loadConfig (fun u => if String.eqb u "" then Some "parse : empty url"
                       else None)
    (file (Some "")) "/data" ""
  = Err "invalid InvoiceNinja URL: parse : empty url" /\
  loadConfig (fun _ => None)
    (Object (mkConfigFile None None None None None None None)) "/data" ""
  = Err "missing Mercury API key" /\
  loadConfig (fun _ => None)
    (ReadError "open /config.json: no such file or directory") "/data" ""
  = Err "error reading config file: open /config.json: no such file or directory".
Proof. cbv zeta. repeat split; eexists; repeat split. Qed.

(** ** What reaches the log *)

Lemma elem_logOutput lvl t x :
  x ∈ logOutput lvl t <-> x ∈ t /\ written lvl x = true.
Proof. unfold logOutput. by rewrite !list_elem_of_In, List.filter_In. Qed.

Lemma setupLog_values toLower logLevel :
  setupLog toLower logLevel = slogLevelDebug /\ toLower logLevel = "debug" \/
  toLower logLevel <> "debug" /\
  (setupLog toLower logLevel = slogLevelInfo \/
   setupLog toLower logLevel = slogLevelWarn \/
   setupLog toLower logLevel = slogLevelError).
Proof.
  unfold setupLog. cbv zeta.
  destruct (String.eqb_spec (toLower logLevel) "debug") as [?|Hn]; [by left|].
  right. split; [done|].
  destruct (String.eqb (toLower logLevel) "info"); [by left|].
  destruct (String.eqb (toLower logLevel) "warn" ||
            String.eqb (toLower logLevel) "warning"); [right; by left|].
  destruct (String.eqb (toLower logLevel) "error"); [right; by right | by left].
Qed.

Lemma sync_fetch_error_logged env config (st : Ledger) w a s e :
  Fetch a s (Err e) ∈ syncTrace env config st w ->
  Log LevelError "Error fetching transactions"
    [("account", acctName a); ("error", e)] ∈ syncTrace env config st w.
Proof.
  destruct (sync_accounts env config st w) as (t0 & E & Hsub & Hsup).
  intros [Hin|Heq]%Hsup; [|discriminate].
  destruct (syncAccounts_fetches _ _ _ _ _ _ _ _ _ _ _ _ E Hin) as (_ & _ & Hlog).
  by apply Hsub, Hlog.
Qed.

(** Whatever [logLevel] is configured, the failures of a turn of the
    loop reach the log: a failed fetch, the error that ended the cycle,
    and a failed write of the state file are written at every setting,
    while debug lines are written only when the setting, in lower case,
    is "debug". *)
Theorem failures_are_logged_at_every_level toLower logLevel env config
    (st : Ledger) w :
  let out :=
    logOutput (setupLog toLower logLevel) (iterTrace env config st w) in
  (forall a s e,
     Fetch a s (Err e) ∈ iterTrace env config st w ->
     Log LevelError "Error fetching transactions"
       [("account", acctName a); ("error", e)] ∈ out) /\
  (forall e,
     syncErr env config st w = Some e ->
     Log LevelError "Error in sync" [("error", e)] ∈ out) /\
  (forall e,
     syncErr env config st w = None ->
     fst (fst (saveState env (syncLedger env config st w)
                 (syncWorld env config st w))) = Some e ->
     Log LevelError "Error saving state" [("error", e)] ∈ out) /\
  (forall msg attrs,
     Log LevelDebug msg attrs ∈ out -> toLower logLevel = "debug").
Proof.
  cbv zeta.
  assert (Herror : forall msg attrs,
    written (setupLog toLower logLevel) (Log LevelError msg attrs) = true).
  { intros msg attrs. simpl.
    destruct (setupLog_values toLower logLevel)
      as [[Hv _]|[_ [Hv|[Hv|Hv]]]]; by rewrite Hv. }
  split; [|split; [|split]].
  - intros a s e Hin%fetch_iterTrace. apply elem_logOutput. split; [|done].
    unfold iterTrace. apply elem_of_app; left.
    by apply (sync_fetch_error_logged env config st w a s e).
  - intros e He. apply elem_logOutput. split; [|done].
    by apply iter_error_logged.
  - intros e Herr Hsave. apply elem_logOutput. split; [|done].
    unfold iterTrace. rewrite Herr.
    apply elem_of_app; right. apply elem_of_app; left.
    unfold persistStep.
    destruct (saveState env _ (syncWorld env config st w)) as [[serr w2] t2].
    simpl in Hsave. subst serr. simpl.
    apply elem_of_app; right. apply list_elem_of_here.
  - intros msg attrs [_ Hw]%elem_logOutput. simpl in Hw.
    destruct (setupLog_values toLower logLevel)
      as [[_ ?]|[_ [Hv|[Hv|Hv]]]]; [done| | |];
      rewrite Hv in Hw; discriminate.
Qed.

(** ** The interval *)

(** The interval in nanoseconds is the configured number of hours times
    [time.Hour] exactly when that number is between -2562047 and
    2562047; beyond, the multiplication wraps around. *)
Theorem syncInterval_exact_iff config :
  syncInterval config = SyncIntervalHours config * nsPerHour <->
  -2562047 <= SyncIntervalHours config <= 2562047.
Proof.
  unfold syncInterval, Int64.mul. split.
  - intros Heq.
    pose proof (wrap_bounds (SyncIntervalHours config * nsPerHour)) as Hb.
    rewrite Heq in Hb.
    unfold Int64.min_int, Int64.max_int, nsPerHour, nsPerSecond in Hb.
    change (2 ^ 63) with 9223372036854775808 in Hb. lia.
  - intros H. apply wrap_in_range.
    unfold Int64.in_range, Int64.min_int, Int64.max_int, nsPerHour, nsPerSecond.
    change (2 ^ 63) with 9223372036854775808. lia.
Qed.

Example syncInterval_wraps :
  syncInterval (Scenario.config [] 7 2562047) = 2562047 * nsPerHour /\
  syncInterval (Scenario.config [] 7 2562048) < 0.
Proof. vm_compute. split; reflexivity. Qed.

(** With an interval that is zero or negative, which [loadConfig]
    accepts, the loop does not pause: the duration handed to
    [time.Sleep] is not positive and the next turn begins as soon as the
    call returns. *)
Theorem nonpositive_interval_never_pauses env config (st : Ledger) w :
  (forall k, 0 <= latency env k) ->
  syncInterval config <= 0 ->
  iterSleep env config st w <= 0 /\
  clock (iterWake env config st w)
  = wall (nowAt env (advance env (iterEnd env config st w)))
    + latency env (tick (advance env (advance env (iterEnd env config st w)))).
Proof.
  intros Hlat Hint.
  set (w2 := iterEnd env config st w).
  assert (Hs : iterSleep env config st w <= 0).
  { unfold iterSleep, Sub, iterNextSync, Add. fold w2. cbn [wall].
    pose proof (Hlat (tick (advance env w2))) as Hl.
    change (wall (nowAt env (advance env w2)))
      with (wall (nowAt env w2) + latency env (tick (advance env w2))).
    unfold Int64.saturate, Int64.min_int, Int64.max_int.
    change (2 ^ 63) with 9223372036854775808. lia. }
  split; [exact Hs|].
  unfold iterWake. fold w2. cbn [clock].
  change (wall (nowAt env (advance env w2)))
    with (clock (advance env (advance env w2))).
  cbn [clock advance]. lia.
Qed.

Lemma nonpositive_interval_never_pauses_witness :
  iterSleep Scenario.envOk (Scenario.config [Scenario.acctA] 7 0) ∅
    Scenario.w0 <= 0.
Proof.
  apply (nonpositive_interval_never_pauses Scenario.envOk
           (Scenario.config [Scenario.acctA] 7 0) ∅ Scenario.w0).
  - intros k. vm_compute. discriminate.
  - vm_compute. discriminate.
Defined.

(** ** The shape of the date *)

Lemma length_append_string (s1 s2 : string) :
  String.length (s1 +:+ s2) = (String.length s1 + String.length s2)%nat.
Proof. induction s1 as [|c s1 IH]; simpl; [done | by rewrite IH]. Qed.

Lemma length_digits n x : String.length (digits n x) = n.
Proof.
  revert x. induction n as [|n IH]; intros x; [done|].
  cbn [digits]. rewrite length_append_string, IH. simpl. lia.
Qed.

Lemma ndigits_four fuel y : 0 <= y <= 9999 -> (ndigits fuel y <= 4)%nat.
Proof.
  intros Hy.
  destruct fuel as [|[|[|[|fuel]]]]; cbn [ndigits];
    repeat match goal with
    | |- context [?a <? 10] =>
        let E := fresh "E" in
        destruct (a <? 10) eqn:E;
        [apply Z.ltb_lt in E | apply Z.ltb_ge in E]
    end; try lia.
  exfalso. Z.div_mod_to_equations. lia.
Qed.

Lemma civil_of_days_year_range z :
  -719528 <= z <= 2932896 ->
  let '(y, m, d) := civil_of_days z in 0 <= y <= 9999.
Proof.
  intros H. unfold civil_of_days. cbv zeta.
  destruct (_ <? 10) eqn:E;
    [apply Z.ltb_lt in E | apply Z.ltb_ge in E];
    (destruct (_ <=? 2) eqn:E2;
       [apply Z.leb_le in E2 | apply Z.leb_gt in E2]);
    Z.div_mod_to_equations; lia.
Qed.

(** For a transaction posted between 0000-01-01 and 9999-12-31 on the
    clock of its location, the date of the posted record has exactly ten
    characters: four digits of year, a dash, two of month, a dash, two
    of day. *)
Theorem posted_date_has_ten_characters config tx :
  -719528 <= localDay (PostedAt tx) <= 2932896 ->
  String.length (btDate (bankTX config tx)) = 10%nat /\
  exists y m d,
    civil_of_days (localDay (PostedAt tx)) = (y, m, d) /\
    btDate (bankTX config tx)
    = digits 4 y +:+ "-" +:+ digits 2 m +:+ "-" +:+ digits 2 d.
Proof.
  intros Hrange. unfold bankTX. cbn [btDate]. unfold FormatDate.
  pose proof (civil_of_days_year_range _ Hrange) as Hy.
  destruct (civil_of_days (localDay (PostedAt tx))) as [[y m] d].
  assert (Hyear : appendInt y 4 = digits 4 y).
  { unfold appendInt. cbv zeta.
    destruct (Z.ltb_spec y 0) as [?|_]; [lia|].
    rewrite Z.abs_eq by lia.
    pose proof (ndigits_four (Z.to_nat (Z.log2 y)) y Hy) as Hn.
    replace (Nat.max 4 (ndigits (Z.to_nat (Z.log2 y)) y)) with 4%nat by lia.
    reflexivity. }
  rewrite Hyear. split.
  - rewrite !length_append_string, !length_digits. reflexivity.
  - by exists y, m, d.
Qed.

Lemma posted_date_has_ten_characters_witness :
  String.length
    (btDate (bankTX (Scenario.config [Scenario.acctA] 7 1) Scenario.tx1))
  = 10%nat.
Proof.
  apply (posted_date_has_ten_characters
           (Scenario.config [Scenario.acctA] 7 1) Scenario.tx1).
  vm_compute. split; discriminate.
Defined.

(** ** Pruning again and again *)

(** Pruning composes: pruning with a cutoff and then with a later one
    is pruning once with the later one, so that the map which the loop
    prunes at every cycle is at any time the map pruned once at the
    latest cutoff; pruning twice with the same cutoff changes nothing
    the second time, and pruning never adds a key. *)
Theorem pruneLoop_composes (c1 c2 : Time) (st : Ledger) :
  wall c1 <= wall c2 ->
  pruneLoop c2 (pruneLoop c1 st) = pruneLoop c2 st /\
  pruneLoop c1 (pruneLoop c1 st) = pruneLoop c1 st /\
  dom (pruneLoop c1 st) ⊆ dom st.
Proof.
  intros Hle.
  assert (Hcomp : forall a b : Time, wall a <= wall b ->
    pruneLoop b (pruneLoop a st) = pruneLoop b st).
  { intros a b Hab. apply map_eq. intros id. rewrite !pruneLoop_lookup.
    destruct (st !! id) as [ts|]; [|done].
    destruct (Before ts a) eqn:Ea; [|done].
    destruct (Before ts b) eqn:Eb; [done|].
    unfold Before in *. apply Z.ltb_lt in Ea. apply Z.ltb_ge in Eb. lia. }
  split; [by apply Hcomp|]. split; [apply Hcomp; lia|].
  intros id [ts Hts]%elem_of_dom. apply pruneLoop_Some in Hts as [Hts _].
  apply elem_of_dom. eauto.
Qed.

Lemma pruneLoop_composes_witness :
  pruneLoop (cutoffOf (mkTime (Scenario.day 101) 0))
    (pruneLoop (cutoffOf (mkTime (Scenario.day 100) 0)) Scenario.staleLedger)
  = pruneLoop (cutoffOf (mkTime (Scenario.day 101) 0)) Scenario.staleLedger.
Proof.
  apply (pruneLoop_composes (cutoffOf (mkTime (Scenario.day 100) 0))
           (cutoffOf (mkTime (Scenario.day 101) 0)) Scenario.staleLedger).
  vm_compute. discriminate.
Defined.

(** ** From start-up to the posts *)

Lemma mainLoop_traces env config n (st : Ledger) w c :
  c ∈ mainLoop env config n st w ->
  (forall tx body r, Post tx body r ∈ cycleTrace c -> body = bankTX config tx) /\
  (forall a s r, Fetch a s r ∈ cycleTrace c -> a ∈ mercuryAccounts config).
Proof.
  revert st w. induction n as [|n IH]; intros st w Hc.
  - by apply elem_of_nil in Hc.
  - rewrite mainLoop_S in Hc. apply elem_of_cons in Hc as [->|Hc]; [|by eapply IH].
    cbn [cycleTrace]. split.
    + intros tx body r Hin%post_iterTrace.
      by apply (run_body _ _ _ _ _ (sync_run env config st w) tx body r).
    + intros a s r Hin%fetch_iterTrace.
      destruct (sync_accounts env config st w) as (t0 & E & Hsub & Hsup).
      destruct (Hsup _ Hin) as [Hin0|?]; [|done].
      by destruct (syncAccounts_fetches _ _ _ _ _ _ _ _ _ _ _ _ E Hin0).
Qed.

Lemma loadConfig_provider parseRequestURI f dataDir flagURL config :
  loadConfig parseRequestURI (Object f) dataDir flagURL = Ok config ->
  BankProvider config = default "Mercury" (fBankProvider f).
Proof.
  unfold loadConfig, unmarshalConfig, defaultConfig.
  cbn [MercuryAPIKey InvoiceNinjaToken InvoiceNinjaURL].
  destruct (String.eqb (default "" (fMercuryAPIKey f)) ""); [discriminate|].
  destruct (String.eqb (default "" (fInvoiceNinjaToken f)) ""); [discriminate|].
  destruct (String.eqb (default "" (fInvoiceNinjaURL f)) "");
    cbn [withURL InvoiceNinjaURL];
    (destruct (parseRequestURI _); [discriminate|]); by intros [= <-].
Qed.

Lemma fetchBankIntegrationID_ok resp config w config' w' t :
  fetchBankIntegrationID resp config w = (None, config', w', t) ->
  exists pre ig post,
    resp = Ok (pre ++ ig :: post) /\
    igProviderName ig = BankProvider config /\
    (forall x, x ∈ pre -> igProviderName x <> BankProvider config) /\
    config' = withBankIntegrationID config (igID ig).
Proof.
  unfold fetchBankIntegrationID, bind, slog, emit, ret.
  destruct resp as [igs|e]; simpl; [|discriminate].
  destruct (findIntegration (BankProvider config) igs) as [id|] eqn:E; simpl;
    [|discriminate].
  intros [= <- <- <-].
  apply findIntegration_Some in E as (pre & ig & post & -> & Hp & <- & Hpre).
  by exists pre, ig, post.
Qed.

(** When [main] gets past its start-up, the record of every post
    attempted in every turn of the loop carries the id of the first
    integration, in the answer received at start-up, whose provider name
    is the configured one, and every fetch is for an account of the list
    received at start-up: nothing is meant for another integration, and
    no other account is polled. *)
Theorem main_routes_posts_to_the_resolved_integration validURI f dataDir flagURL
    igResp acctResp env n w cycles c :
  mainProgram validURI f dataDir flagURL igResp acctResp env n w = Ok cycles ->
  c ∈ cycles ->
  exists pre ig post accts,
    igResp = Ok (pre ++ ig :: post) /\
    igProviderName ig = default "Mercury" (fBankProvider f) /\
    (forall x, x ∈ pre ->
       igProviderName x <> default "Mercury" (fBankProvider f)) /\
    acctResp = Ok accts /\
    (forall tx body r,
       Post tx body r ∈ cycleTrace c -> btBankIntegrationID body = igID ig) /\
    (forall a s r, Fetch a s r ∈ cycleTrace c -> a ∈ accts).
Proof.
  unfold mainProgram.
  destruct (loadConfig validURI (Object f) dataDir flagURL) as [config|e]
    eqn:Hcfg; [|discriminate].
  apply loadConfig_provider in Hcfg as Hprov.
  destruct (loadState (disk w)) as [state|e]; [|discriminate].
  destruct (fetchBankIntegrationID igResp config w) as [[[[e|] config1] w1] t1]
    eqn:Hig; [discriminate|].
  apply fetchBankIntegrationID_ok in Hig as (pre & ig & post & -> & Hname & Hpre & ->).
  unfold fetchMercuryAccounts, bind, slog, emit, ret.
  destruct acctResp as [accts|e]; simpl; [|discriminate].
  intros [= <-] Hc.
  destruct (mainLoop_traces _ _ _ _ _ _ Hc) as [Hposts Hfetches].
  rewrite Hprov in Hname, Hpre.
  exists pre, ig, post, accts.
  split; [done|]. split; [done|]. split; [done|]. split; [done|]. split.
  - intros tx body r Hin. by rewrite (Hposts tx body r Hin).
  - intros a s r Hin. by apply (Hfetches a s r).
Qed.

Lemma main_routes_posts_to_the_resolved_integration_witness :
  let file :=
    mkConfigFile (Some "key") (Some "token") (Some "https://ninja.example")
      None (Some (Int64.mkInt 1 eq_refl)) (Some (Int64.mkInt 7 eq_refl))
      None in
  let igResp :=
    Ok [mkIntegration "i1" "Plaid"; mkIntegration "i2" "Mercury";
        mkIntegration "i3" "Mercury"] in
  let acctResp := Ok [Scenario.acctA] in
  exists cycles c,
    mainProgram (fun _ => None) file "/data" "" igResp acctResp
      Scenario.envOk 1 Scenario.w0 = Ok cycles /\
    cycles !! 0%nat = Some c /\
    exists pre ig post accts,
      igResp = Ok (pre ++ ig :: post) /\
      igProviderName ig = default "Mercury" (fBankProvider file) /\
      (forall x, x ∈ pre ->
         igProviderName x <> default "Mercury" (fBankProvider file)) /\
      acctResp = Ok accts /\
      (forall tx body r,
         Post tx body r ∈ cycleTrace c -> btBankIntegrationID body = igID ig) /\
      (forall a s r, Fetch a s r ∈ cycleTrace c -> a ∈ accts).
Proof.
  cbv zeta. eexists _, _.
  split; [reflexivity|]. split; [rewrite mainLoop_S; reflexivity|].
  eapply (main_routes_posts_to_the_resolved_integration (fun _ => None)
            (mkConfigFile (Some "key") (Some "token")
               (Some "https://ninja.example") None
               (Some (Int64.mkInt 1 eq_refl)) (Some (Int64.mkInt 7 eq_refl))
               None)
            "/data" "" _ _ Scenario.envOk 1 Scenario.w0).
  - reflexivity.
  - rewrite mainLoop_S. apply list_elem_of_here.
Defined.
